(** * MorphingOscillator: the morphing waveform voice

    A shallow embedding of [Source/MorphingOscillator.h].

    Numeric model.  The C++ [double] (and the [float] of the output buffer) is
    read as a real number: every arithmetic operation is the exact operation
    of [R], there is no rounding, no infinity and no NaN.  The C++ [int] is a
    32-bit signed integer; an operation whose result does not fit has no
    defined behaviour in C++ and is modelled as a failure ([None]).  The
    same holds for a buffer access outside the buffer. *)

From Equations Require Import Equations.
From Stdlib Require Import Reals ZArith List Lia Lra Bool.
From Stdlib Require Import Zfloor.
Import ListNotations.

Open Scope R_scope.

(** ** Library functions used by the source *)

(** [MathConstants<double>::pi] and [MathConstants<double>::twoPi]. *)
Module MathConstants.
Definition pi : R := PI.
Definition twoPi : R := 2 * PI.
End MathConstants.

(** [std::floor]: the largest integral value not above [x]. *)
Definition std_floor (x : R) : R := IZR (Zfloor x).

(** Rounding toward zero, as done by [std::fmod] and by the conversion of a
    [double] to an [int]. *)
Definition Ztrunc (x : R) : Z :=
  if Rle_dec 0 x then Zfloor x else Zceil x.

(** [std::fmod x y]: [x - n*y] where [n] is [x/y] with its fractional part
    cut off, so the result has the sign of [x]. *)
Definition std_fmod (x y : R) : R := x - IZR (Ztrunc (x / y)) * y.

(** [std::clamp] on [int]. *)
Definition std_clamp (v lo hi : Z) : Z :=
  if (v <? lo)%Z then lo else if (hi <? v)%Z then hi else v.

(** The result of a comparison converted to [double]. *)
Definition double_of_bool (b : bool) : R := if b then 1 else 0.

Definition Rltb (x y : R) : bool := if Rlt_dec x y then true else false.
Definition Rleb (x y : R) : bool := if Rle_dec x y then true else false.

(** ** 32-bit signed integers *)

Definition INT_MIN : Z := (-2147483648)%Z.
Definition INT_MAX : Z := 2147483647%Z.

Definition in_int (z : Z) : bool := ((INT_MIN <=? z) && (z <=? INT_MAX))%Z.

(** An [int] result: defined only when it fits. *)
Definition int_result (z : Z) : option Z := if in_int z then Some z else None.

(** [static_cast<int>(x)]: truncation, undefined when out of range. *)
Definition static_cast_int (x : R) : option Z := int_result (Ztrunc x).

(** ** The waveform generators *)

Definition sineValue (currentAngle : R) : R := sin currentAngle.

Definition squareValue (currentAngle : R) : R :=
  1 - 2 * double_of_bool (Rltb (sin currentAngle) 0).

Definition triangleValue (currentAngle : R) : R :=
  (2 / MathConstants.pi) * asin (sin currentAngle).

Definition sawValue (currentAngle : R) : R :=
  (2 / MathConstants.pi)
  * (std_fmod currentAngle MathConstants.twoPi - MathConstants.pi).

Definition getWaveSample (waveform : Z) (input : R) : R :=
  if (waveform =? 0)%Z then sineValue input
  else if (waveform =? 1)%Z then squareValue input
  else if (waveform =? 2)%Z then triangleValue input
  else sawValue input.

(** Modelled from the spec: [MidiMessage::getMidiNoteInHertz] belongs to the
    audio framework and is not part of the sources; the spec gives the
    frequency of a note as [440 * 2^((noteNumber-69)/12)]. *)
Definition getMidiNoteInHertz (noteNumber : Z) : R :=
  440 * Rpower 2 ((IZR noteNumber - 69) / 12).

(** [std::numeric_limits<double>::min()], the smallest positive normal
    [double], and [std::numeric_limits<double>::epsilon()]. *)
Definition DBL_MIN : R := / 2 ^ 1022.
Definition DBL_EPSILON : R := / 2 ^ 52.

(** [approximatelyEqual] of the audio framework (JUCE), called with its
    default tolerances: two finite numbers are approximately equal when
    their distance is at most [DBL_MIN], or at most [DBL_EPSILON] times the
    larger of their magnitudes. *)
Definition approximatelyEqual (a b : R) : bool :=
  let diff := Rabs (a - b) in
  Rleb diff DBL_MIN || Rleb diff (DBL_EPSILON * Rmax (Rabs a) (Rabs b)).

(** ** Failure *)

Definition bind {A B : Type} (o : option A) (k : A -> option B) : option B :=
  match o with
  | Some a => k a
  | None => None
  end.

Notation "x <- e ;; k" := (bind e (fun x => k))
  (at level 61, e at next level, right associativity).
Notation "' p <- e ;; k" := (bind e (fun p => k))
  (at level 61, p pattern, e at next level, right associativity).

(** ** The output buffer *)

(** An [AudioBuffer]: one list of samples per channel. *)
Definition AudioBuffer : Type := list (list R).

Definition getNumChannels (buf : AudioBuffer) : Z := Z.of_nat (length buf).

(** Every channel holds [size] samples, and [size] is an [int]. *)
Definition buffer_wf (size : Z) (buf : AudioBuffer) : Prop :=
  (size <= INT_MAX)%Z /\ Forall (fun ch => Z.of_nat (length ch) = size) buf.

Fixpoint list_alter {A : Type} (f : A -> A) (i : nat) (l : list A) : list A :=
  match l, i with
  | [], _ => []
  | x :: l', O => f x :: l'
  | x :: l', S i' => x :: list_alter f i' l'
  end.

(** [AudioBuffer::addSample]: adds to one sample of one channel.  An index
    outside the buffer is an access out of bounds. *)
Definition addSample (buf : AudioBuffer) (destChannel destSample : Z)
    (valueToAdd : R) : option AudioBuffer :=
  if ((0 <=? destChannel) && (destChannel <? getNumChannels buf))%Z then
    ch <- nth_error buf (Z.to_nat destChannel) ;;
    if ((0 <=? destSample) && (destSample <? Z.of_nat (length ch)))%Z then
      Some (list_alter
              (list_alter (fun s => s + valueToAdd) (Z.to_nat destSample))
              (Z.to_nat destChannel) buf)
    else None
  else None.

(** ** The voice *)

Record MorphingWaveformVoice : Type := mkVoice {
  phaseIndex : R;
  phaseIncrement : R;
  level : R;
  wavePosition : R;
  wave_a : Z;
  wave_b : Z;
  (** the playback rate kept by the [SynthesiserVoice] base class *)
  currentSampleRate : R
}.

(** The member initialisers of the voice; the playback rate is whatever
    the base class holds. *)
Definition newVoice (sampleRate : R) : MorphingWaveformVoice :=
  {| phaseIndex := 0; phaseIncrement := 0; level := 1; wavePosition := 0;
     wave_a := 0; wave_b := 0; currentSampleRate := sampleRate |}.

Definition getSampleRate (v : MorphingWaveformVoice) : R := currentSampleRate v.

Definition set_phaseIndex (x : R) (v : MorphingWaveformVoice) :=
  {| phaseIndex := x; phaseIncrement := phaseIncrement v; level := level v;
     wavePosition := wavePosition v; wave_a := wave_a v; wave_b := wave_b v;
     currentSampleRate := currentSampleRate v |}.

Definition set_phaseIncrement (x : R) (v : MorphingWaveformVoice) :=
  {| phaseIndex := phaseIndex v; phaseIncrement := x; level := level v;
     wavePosition := wavePosition v; wave_a := wave_a v; wave_b := wave_b v;
     currentSampleRate := currentSampleRate v |}.

Definition set_morph (a b : Z) (pos : R) (v : MorphingWaveformVoice) :=
  {| phaseIndex := phaseIndex v; phaseIncrement := phaseIncrement v;
     level := level v; wavePosition := pos; wave_a := a; wave_b := b;
     currentSampleRate := currentSampleRate v |}.

(** [startNote].  The sound pointer of the source is not used and is left
    out; velocity and pitch-wheel position are taken and ignored, as in the
    source. *)
Definition startNote (midiNoteNumber : Z) (velocity : R)
    (currentPitchWheelPosition : Z) (v : MorphingWaveformVoice)
    : MorphingWaveformVoice :=
  let v := set_phaseIndex 0 v in
  let currentFrequency := getMidiNoteInHertz midiNoteNumber in
  let cyclesPerSample := currentFrequency / getSampleRate v in
  set_phaseIncrement (cyclesPerSample * MathConstants.twoPi) v.

Definition stopNote (velocity : R) (allowTailOff : bool)
    (v : MorphingWaveformVoice) : MorphingWaveformVoice :=
  set_phaseIncrement 0 v.

(** [updateMorphFunctions]: the conversion of the floor to [int] and the
    addition [wave_a + 1] are [int] operations. *)
Definition updateMorphFunctions (position : R) (v : MorphingWaveformVoice)
    : option MorphingWaveformVoice :=
  let positionFloor := std_floor position in
  a <- static_cast_int positionFloor ;;
  a1 <- int_result (a + 1) ;;
  Some (set_morph a (std_clamp a1 0 3) (position - positionFloor) v).

(** The inner loop of [renderNextBlock]:
    [for (channel = 0; channel < outputLen; ++channel) addSample(...)].
    [channel] stays below [outputLen], so its increment cannot overflow. *)
Equations? addToChannels (buf : AudioBuffer) (outputLen channel : Z)
    (startSample : Z) (sample : R) : option AudioBuffer
    by wf (Z.to_nat (outputLen - channel)) lt :=
  addToChannels buf outputLen channel startSample sample
    with Z_lt_dec channel outputLen := {
    | right _ := Some buf
    | left _ with addSample buf channel startSample sample := {
      | None := None
      | Some buf' :=
          addToChannels buf' outputLen (channel + 1) startSample sample } }.
Proof. lia. Qed.

(** The body of the sample loop: one sample is computed, added to every
    channel, and the phase and the sample position advance. *)
Definition renderSample (v : MorphingWaveformVoice) (buf : AudioBuffer)
    (startSample : Z) : option (MorphingWaveformVoice * AudioBuffer * Z) :=
  let wave_a_value := getWaveSample (wave_a v) (phaseIndex v) in
  let wave_b_value := getWaveSample (wave_b v) (phaseIndex v) in
  let interpolatedValue :=
    wave_a_value * (1 - wavePosition v) + wave_b_value * wavePosition v in
  let levelAdjustedSample := interpolatedValue * level v in
  let outputLen := getNumChannels buf in
  buf' <- addToChannels buf outputLen 0 startSample levelAdjustedSample ;;
  let v' := set_phaseIndex (phaseIndex v + phaseIncrement v) v in
  startSample' <- int_result (startSample + 1) ;;
  Some (v', buf', startSample').

(** The sample loop: [while (--numSamples >= 0) { ... }].  The decrement
    comes first and is undefined when [numSamples - 1] is not an [int]. *)
Equations? renderLoop (v : MorphingWaveformVoice) (buf : AudioBuffer)
    (startSample numSamples : Z) : option (MorphingWaveformVoice * AudioBuffer)
    by wf (Z.to_nat numSamples) lt :=
  renderLoop v buf startSample numSamples with in_int (numSamples - 1) := {
    | false := None
    | true with Z_ge_dec (numSamples - 1) 0 := {
      | right _ := Some (v, buf)
      | left _ with renderSample v buf startSample := {
        | None := None
        | Some (v', buf', startSample') :=
            renderLoop v' buf' startSample' (numSamples - 1) } } }.
Proof. lia. Qed.

(** [renderNextBlock]: the loop runs only when the phase increment is not
    approximately 0. *)
Definition renderNextBlock (v : MorphingWaveformVoice) (outputBuffer : AudioBuffer)
    (startSample numSamples : Z) : option (MorphingWaveformVoice * AudioBuffer) :=
  if negb (approximatelyEqual (phaseIncrement v) 0) then
    renderLoop v outputBuffer startSample numSamples
  else Some (v, outputBuffer).

(** ** Observations used in the statements *)

(** The sample at position [c], [j] of a buffer, when there is one. *)
Definition getSample (buf : AudioBuffer) (c j : nat) : option R :=
  ch <- nth_error buf c ;; nth_error ch j.

(** The value the voice contributes [i] samples after the start of a
    block: both waveforms at the advanced phase, blended linearly and
    scaled by the level. *)
Definition sampleAt (v : MorphingWaveformVoice) (i : Z) : R :=
  let phase := phaseIndex v + IZR i * phaseIncrement v in
  (getWaveSample (wave_a v) phase * (1 - wavePosition v)
   + getWaveSample (wave_b v) phase * wavePosition v) * level v.

(** What a block of [n] samples starting at [s] adds at position [j]. *)
Definition blockTerm (v : MorphingWaveformVoice) (s n : Z) (j : nat) : R :=
  if ((s <=? Z.of_nat j) && (Z.of_nat j <? s + n))%Z
  then sampleAt v (Z.of_nat j - s) else 0.

(** The folding of an angle that [asin (sin _)] performs near 0. *)
Definition fold_angle (x : R) : R :=
  if Rle_dec x (- (PI / 2)) then - PI - x
  else if Rle_dec x (PI / 2) then x else PI - x.

(** ** The morph slider of the demo window *)

(** [waveformBlend.setRange (0.0, 2.0, 0.01)]: the least and the greatest
    value of the slider. *)
Definition waveformBlend_minimum : R := 0.
Definition waveformBlend_maximum : R := 2.

(** [waveformBlend.onValueChange]: the value of the slider goes to the one
    voice of the synthesiser. *)
Definition waveformBlend_onValueChange (value : R)
    (voice : MorphingWaveformVoice) : option MorphingWaveformVoice :=
  updateMorphFunctions value voice.

(** ** Further observations *)

(** Phase and phase increment are not negative, so no waveform is asked
    for a negative angle. *)
Definition phase_forward (v : MorphingWaveformVoice) : Prop :=
  0 <= phaseIndex v /\ 0 <= phaseIncrement v.

(** The sample a voice adds [i] steps on once its morph position is set to
    [p]; 0 where the position cannot be stored. *)
Definition morphedSample (v : MorphingWaveformVoice) (i : Z) (p : R) : R :=
  match updateMorphFunctions p v with
  | Some v' => sampleAt v' i
  | None => 0
  end.

(** ** Example states *)

(** A sounding voice: a sine at one radian per sample. *)
Definition soundingVoice : MorphingWaveformVoice :=
  {| phaseIndex := 0; phaseIncrement := 1; level := 1; wavePosition := 0;
     wave_a := 0; wave_b := 1; currentSampleRate := 44100 |}.

(** A square-wave voice whose increment is the smallest normal [double]. *)
Definition tinyVoice : MorphingWaveformVoice :=
  {| phaseIndex := 0; phaseIncrement := DBL_MIN; level := 1; wavePosition := 0;
     wave_a := 1; wave_b := 2; currentSampleRate := 44100 |}.

(** * Properties *)

(** ** Unfolding the two loops *)

Lemma addToChannels_step buf outputLen channel s x :
  addToChannels buf outputLen channel s x =
  if (channel <? outputLen)%Z then
    match addSample buf channel s x with
    | None => None
    | Some buf' => addToChannels buf' outputLen (channel + 1) s x
    end
  else Some buf.
Proof.
  rewrite addToChannels_equation_1.
  destruct (Z_lt_dec channel outputLen) as [g|g]; simpl.
  - replace (channel <? outputLen)%Z with true by (symmetry; apply Z.ltb_lt; lia).
    destruct (addSample buf channel s x); reflexivity.
  - replace (channel <? outputLen)%Z with false by (symmetry; apply Z.ltb_ge; lia).
    reflexivity.
Qed.

Lemma renderLoop_step v buf s n :
  renderLoop v buf s n =
  if in_int (n - 1) then
    if (0 <=? n - 1)%Z then
      match renderSample v buf s with
      | None => None
      | Some (v', buf', s') => renderLoop v' buf' s' (n - 1)
      end
    else Some (v, buf)
  else None.
Proof.
  rewrite renderLoop_equation_1.
  destruct (in_int (n - 1)); simpl; [|reflexivity].
  destruct (Z_ge_dec (n - 1) 0) as [g|g]; simpl.
  - replace (0 <=? n - 1)%Z with true by (symmetry; apply Z.leb_le; lia).
    destruct (renderSample v buf s) as [[[v' buf'] s']|]; reflexivity.
  - replace (0 <=? n - 1)%Z with false by (symmetry; apply Z.leb_gt; lia).
    reflexivity.
Qed.

(** ** Facts on the library functions *)

Lemma in_int_iff z : in_int z = true <-> (INT_MIN <= z <= INT_MAX)%Z.
Proof. unfold in_int. rewrite andb_true_iff, !Z.leb_le. tauto. Qed.

Lemma int_result_in z : (INT_MIN <= z <= INT_MAX)%Z -> int_result z = Some z.
Proof. intros H. unfold int_result. now rewrite (proj2 (in_int_iff z) H). Qed.

Lemma Ztrunc_IZR z : Ztrunc (IZR z) = z.
Proof.
  unfold Ztrunc. destruct (Rle_dec 0 (IZR z)).
  - apply ZfloorZ.
  - unfold Zceil. rewrite ZfloorNZ. lia.
Qed.

Lemma PI_pos : 0 < PI.
Proof. exact PI_RGT_0. Qed.

Lemma std_fmod_0 y : std_fmod 0 y = 0.
Proof.
  unfold std_fmod. replace (0 / y) with (IZR 0) by (unfold Rdiv; ring).
  rewrite Ztrunc_IZR. ring.
Qed.

Lemma DBL_MIN_pos : 0 < DBL_MIN.
Proof. unfold DBL_MIN. apply Rinv_0_lt_compat, pow_lt. lra. Qed.

Lemma Rleb_true x y : x <= y -> Rleb x y = true.
Proof. intros H. unfold Rleb. destruct (Rle_dec x y); [reflexivity|contradiction]. Qed.

Lemma approximatelyEqual_0_0 : approximatelyEqual 0 0 = true.
Proof.
  unfold approximatelyEqual. rewrite Rleb_true; [reflexivity|].
  rewrite Rminus_diag, Rabs_R0. apply Rlt_le, DBL_MIN_pos.
Qed.

(** Against zero the relative tolerance never helps: a number is
    approximately zero exactly when its magnitude is at most [DBL_MIN]. *)
Lemma approximatelyEqual_0 a :
  approximatelyEqual a 0 = true <-> Rabs a <= DBL_MIN.
Proof.
  unfold approximatelyEqual. rewrite Rminus_0_r, Rabs_R0.
  rewrite (Rmax_left (Rabs a) 0) by apply Rabs_pos.
  assert (He : 0 < DBL_EPSILON < 1).
  { unfold DBL_EPSILON. split.
    - apply Rinv_0_lt_compat, pow_lt; lra.
    - rewrite <- Rinv_1. apply Rinv_lt_contravar.
      + rewrite Rmult_1_l. apply pow_lt; lra.
      + apply Rlt_pow_R1; [lra|lia]. }
  pose proof DBL_MIN_pos as Hm. pose proof (Rabs_pos a) as Ha.
  split.
  - intros H. apply orb_true_iff in H. destruct H as [H|H].
    + unfold Rleb in H. destruct (Rle_dec (Rabs a) DBL_MIN); [assumption|discriminate].
    + unfold Rleb in H.
      destruct (Rle_dec (Rabs a) (DBL_EPSILON * Rabs a)); [|discriminate]. nra.
  - intros H. now rewrite (Rleb_true _ _ H).
Qed.

Lemma approximatelyEqual_0_nonzero a :
  approximatelyEqual a 0 = false -> a <> 0.
Proof.
  intros H ->. rewrite approximatelyEqual_0_0 in H. discriminate.
Qed.

(** ** The waveform generators *)

Lemma squareValue_cases x : squareValue x = 1 \/ squareValue x = -1.
Proof.
  unfold squareValue, Rltb, double_of_bool.
  destruct (Rlt_dec (sin x) 0); [right|left]; ring.
Qed.

Lemma triangleValue_range x : -1 <= triangleValue x <= 1.
Proof.
  unfold triangleValue, MathConstants.pi.
  pose proof PI_pos as Hpi. pose proof (asin_bound (sin x)) as [Hl Hu].
  assert (H2 : 0 < 2 / PI) by (apply Rdiv_lt_0_compat; lra).
  split.
  - replace (-1) with (2 / PI * (- (PI / 2))) by (field; lra).
    apply Rmult_le_compat_l; lra.
  - replace 1 with (2 / PI * (PI / 2)) by (field; lra).
    apply Rmult_le_compat_l; lra.
Qed.

Lemma sawValue_0 : sawValue 0 = -2.
Proof.
  unfold sawValue, MathConstants.pi, MathConstants.twoPi.
  rewrite std_fmod_0. field. apply PI_neq0.
Qed.

(** C9: the dispatch is a total function of the integer kind and the angle;
    kind 0 gives exactly the sine of the angle, kind 1 the square value,
    kind 2 the triangle value, and every other integer kind, negative or
    above 3, gives the sawtooth value. *)
Theorem getWaveSample_dispatch (waveform : Z) (input : R) :
  getWaveSample 0 input = sin input /\
  getWaveSample 1 input = squareValue input /\
  getWaveSample 2 input = triangleValue input /\
  getWaveSample 3 input = sawValue input /\
  ((waveform < 0 \/ 3 <= waveform)%Z ->
   getWaveSample waveform input = sawValue input).
Proof.
  repeat split; try reflexivity.
  intros H. unfold getWaveSample.
  destruct (Z.eqb_spec waveform 0); [lia|].
  destruct (Z.eqb_spec waveform 1); [lia|].
  destruct (Z.eqb_spec waveform 2); [lia|].
  reflexivity.
Qed.

Lemma getWaveSample_dispatch_witness :
  getWaveSample (-5) 1 = sawValue 1.
Proof.
  apply (getWaveSample_dispatch (-5) 1). left. lia.
Defined.

(** C2: the sine, square and triangle generators stay within [-1, 1] at
    every angle, but the sawtooth generator does not: at angle 0 the
    dispatch for kind 3 returns -2. *)
Theorem sawtooth_leaves_unit_range :
  (forall x, -1 <= getWaveSample 0 x <= 1) /\
  (forall x, -1 <= getWaveSample 1 x <= 1) /\
  (forall x, -1 <= getWaveSample 2 x <= 1) /\
  getWaveSample 3 0 = -2 /\
  ~ (-1 <= getWaveSample 3 0 <= 1).
Proof.
  assert (H3 : getWaveSample 3 0 = -2) by exact sawValue_0.
  repeat split.
  - apply SIN_bound.
  - apply SIN_bound.
  - change (getWaveSample 1 x) with (squareValue x).
    destruct (squareValue_cases x) as [-> | ->]; lra.
  - change (getWaveSample 1 x) with (squareValue x).
    destruct (squareValue_cases x) as [-> | ->]; lra.
  - apply triangleValue_range.
  - apply triangleValue_range.
  - exact H3.
  - rewrite H3. lra.
Qed.

(** ** Note start and stop *)

(** C5: starting a note resets the phase to 0 and sets the phase increment
    to 2*pi*(440 * 2^((n-69)/12)) / sampleRate, whatever the velocity and the
    pitch-wheel position; every other field is kept.  For note 69 at
    44100 Hz the increment is 2*pi*440/44100. *)
Theorem startNote_sets_phase (n : Z) (velocity velocity' : R) (wheel wheel' : Z)
    (v : MorphingWaveformVoice) :
  let v' := startNote n velocity wheel v in
  phaseIndex v' = 0 /\
  phaseIncrement v' =
    2 * PI * (440 * Rpower 2 ((IZR n - 69) / 12)) / currentSampleRate v /\
  startNote n velocity' wheel' v = v' /\
  (level v', wavePosition v', wave_a v', wave_b v', currentSampleRate v')
  = (level v, wavePosition v, wave_a v, wave_b v, currentSampleRate v) /\
  phaseIncrement
    (startNote 69 velocity wheel
       (mkVoice (phaseIndex v) (phaseIncrement v) (level v) (wavePosition v)
          (wave_a v) (wave_b v) 44100))
  = 2 * PI * 440 / 44100.
Proof.
  cbv zeta. repeat split.
  - unfold startNote, getMidiNoteInHertz, getSampleRate, MathConstants.twoPi.
    simpl. unfold Rdiv. ring.
  - unfold startNote, getMidiNoteInHertz, getSampleRate, MathConstants.twoPi.
    simpl. replace ((69 - 69) / 12) with 0 by (unfold Rdiv; ring).
    rewrite Rpower_O by lra. unfold Rdiv. ring.
Qed.

(** C6: stopping the note sets the phase increment to exactly 0, and a
    render call that follows, with any buffer, start position and sample
    count, returns the voice and the buffer as they were. *)
Theorem stopNote_silences_render (velocity : R) (allowTailOff : bool)
    (v : MorphingWaveformVoice) (buf : AudioBuffer) (startSample numSamples : Z) :
  phaseIncrement (stopNote velocity allowTailOff v) = 0 /\
  renderNextBlock (stopNote velocity allowTailOff v) buf startSample numSamples
  = Some (stopNote velocity allowTailOff v, buf).
Proof.
  split; [reflexivity|].
  unfold renderNextBlock. simpl phaseIncrement.
  now rewrite approximatelyEqual_0_0.
Qed.

(** ** The morph control *)

Lemma static_cast_int_floor p :
  static_cast_int (std_floor p) = int_result (Zfloor p).
Proof. unfold static_cast_int, std_floor. now rewrite Ztrunc_IZR. Qed.

Lemma updateMorphFunctions_in_range p v :
  (INT_MIN <= Zfloor p < INT_MAX)%Z ->
  updateMorphFunctions p v =
  Some (set_morph (Zfloor p) (std_clamp (Zfloor p + 1) 0 3)
          (p - IZR (Zfloor p)) v).
Proof.
  intros H. unfold updateMorphFunctions.
  rewrite static_cast_int_floor, int_result_in by lia. simpl.
  rewrite int_result_in by lia. reflexivity.
Qed.

Lemma Zfloor_small p z : IZR z <= p < IZR z + 1 -> Zfloor p = z.
Proof. apply Zfloor_eq. Qed.

(** C3 (amended): for every position p whose floor and its successor are
    32-bit integers, the morph update succeeds and leaves wave_a = floor(p),
    not clamped, wave_b = clamp(wave_a + 1, 0, 3) and wavePosition =
    p - floor(p), the other fields untouched.  Position 0 gives index 0 and
    fraction 0, position 3 gives wave_a = wave_b = 3 and fraction 0, and
    position 1.5 gives wave_a = 1, wave_b = 2 and fraction 0.5. *)
Theorem updateMorphFunctions_floor (p : R) (v : MorphingWaveformVoice) :
  ((INT_MIN <= Zfloor p < INT_MAX)%Z ->
   exists v',
     updateMorphFunctions p v = Some v' /\
     wave_a v' = Zfloor p /\
     wave_b v' = std_clamp (wave_a v' + 1) 0 3 /\
     wavePosition v' = p - IZR (Zfloor p) /\
     (phaseIndex v', phaseIncrement v', level v', currentSampleRate v')
     = (phaseIndex v, phaseIncrement v, level v, currentSampleRate v)) /\
  updateMorphFunctions 0 v = Some (set_morph 0 1 0 v) /\
  updateMorphFunctions 3 v = Some (set_morph 3 3 0 v) /\
  updateMorphFunctions (3 / 2) v = Some (set_morph 1 2 (1 / 2) v).
Proof.
  split; [|split; [|split]].
  - intros H. eexists. split; [apply (updateMorphFunctions_in_range p v H)|].
    simpl. repeat split.
  - rewrite updateMorphFunctions_in_range;
      rewrite (Zfloor_small 0 0) by lra; [|unfold INT_MIN, INT_MAX; lia].
    f_equal. f_equal. lra.
  - rewrite updateMorphFunctions_in_range;
      rewrite (Zfloor_small 3 3) by lra; [|unfold INT_MIN, INT_MAX; lia].
    f_equal. f_equal. lra.
  - rewrite updateMorphFunctions_in_range;
      rewrite (Zfloor_small (3 / 2) 1) by lra; [|unfold INT_MIN, INT_MAX; lia].
    f_equal. f_equal. lra.
Qed.

Lemma updateMorphFunctions_floor_witness :
  exists v',
    updateMorphFunctions (5 / 2) (newVoice 44100) = Some v' /\
    wave_a v' = Zfloor (5 / 2) /\
    wave_b v' = std_clamp (wave_a v' + 1) 0 3 /\
    wavePosition v' = 5 / 2 - IZR (Zfloor (5 / 2)) /\
    (phaseIndex v', phaseIncrement v', level v', currentSampleRate v')
    = (phaseIndex (newVoice 44100), phaseIncrement (newVoice 44100),
       level (newVoice 44100), currentSampleRate (newVoice 44100)).
Proof.
  apply (proj1 (updateMorphFunctions_floor (5 / 2) (newVoice 44100))).
  rewrite (Zfloor_small (5 / 2) 2) by lra. unfold INT_MIN, INT_MAX. lia.
Defined.

(** C3 (as stated) fails at position 2^31: its floor is not a 32-bit
    integer, so wave_a cannot hold it and the conversion is undefined. *)
Lemma updateMorphFunctions_floor_not_int :
  in_int (Zfloor 2147483648) = false /\
  updateMorphFunctions 2147483648 (newVoice 44100) = None.
Proof.
  assert (E : Zfloor 2147483648 = 2147483648%Z) by apply ZfloorZ.
  split.
  - rewrite E. reflexivity.
  - unfold updateMorphFunctions. rewrite static_cast_int_floor, E. reflexivity.
Qed.

(** ** The render loop *)

Lemma list_alter_length {A} (f : A -> A) i (l : list A) :
  length (list_alter f i l) = length l.
Proof.
  revert i. induction l as [|x l IH]; intros [|i]; simpl; auto.
Qed.

Lemma nth_error_list_alter {A} (f : A -> A) i j (l : list A) :
  nth_error (list_alter f i l) j =
  if Nat.eqb j i then option_map f (nth_error l j) else nth_error l j.
Proof.
  revert i j. induction l as [|x l IH]; intros i j.
  - destruct i, j; simpl; try reflexivity; now destruct (Nat.eqb _ _).
  - destruct i as [|i], j as [|j]; simpl; try reflexivity. apply IH.
Qed.

Lemma list_alter_app {A} (f : A -> A) (pre : list A) x rest :
  list_alter f (length pre) (pre ++ x :: rest) = pre ++ f x :: rest.
Proof. induction pre as [|y pre IH]; simpl; [reflexivity|now rewrite IH]. Qed.

Lemma addSample_in_range (pre : AudioBuffer) ch rest pos x :
  (0 <= pos < Z.of_nat (length ch))%Z ->
  addSample (pre ++ ch :: rest) (Z.of_nat (length pre)) pos x =
  Some (pre ++ list_alter (fun s => s + x) (Z.to_nat pos) ch :: rest).
Proof.
  intros Hpos. unfold addSample, getNumChannels.
  replace ((0 <=? Z.of_nat (length pre))%Z
           && (Z.of_nat (length pre) <? Z.of_nat (length (pre ++ ch :: rest)))%Z)
    with true.
  2:{ symmetry. apply andb_true_iff. split; [apply Z.leb_le; lia|].
      apply Z.ltb_lt. rewrite length_app. simpl. lia. }
  rewrite Nat2Z.id, nth_error_app2, Nat.sub_diag by lia. simpl.
  replace ((0 <=? pos)%Z && (pos <? Z.of_nat (length ch))%Z) with true.
  2:{ symmetry. apply andb_true_iff. split; [apply Z.leb_le|apply Z.ltb_lt]; lia. }
  now rewrite list_alter_app.
Qed.

Lemma addToChannels_from (rest pre : AudioBuffer) pos x :
  Forall (fun ch => (0 <= pos < Z.of_nat (length ch))%Z) rest ->
  addToChannels (pre ++ rest) (Z.of_nat (length (pre ++ rest)))
    (Z.of_nat (length pre)) pos x =
  Some (pre ++ map (list_alter (fun s => s + x) (Z.to_nat pos)) rest).
Proof.
  revert pre. induction rest as [|ch rest IH]; intros pre Hall.
  - simpl. rewrite addToChannels_step, app_nil_r, Z.ltb_irrefl. reflexivity.
  - inversion Hall as [|? ? Hch Hrest]; subst.
    rewrite addToChannels_step.
    replace (Z.of_nat (length pre) <? Z.of_nat (length (pre ++ ch :: rest)))%Z
      with true by (symmetry; apply Z.ltb_lt; rewrite length_app; simpl; lia).
    rewrite addSample_in_range by assumption.
    set (ch' := list_alter _ _ ch).
    specialize (IH (pre ++ [ch']) Hrest).
    rewrite <- app_assoc in IH. simpl in IH.
    replace (Z.of_nat (length (pre ++ ch :: rest)))
      with (Z.of_nat (length (pre ++ ch' :: rest)))
      by (rewrite !length_app; reflexivity).
    replace (Z.of_nat (length pre) + 1)%Z with (Z.of_nat (length (pre ++ [ch'])))
      by (rewrite length_app; simpl; lia).
    rewrite IH, <- app_assoc. reflexivity.
Qed.

Lemma addToChannels_all (buf : AudioBuffer) size pos x :
  buffer_wf size buf -> (0 <= pos < size)%Z ->
  addToChannels buf (getNumChannels buf) 0 pos x =
  Some (map (list_alter (fun s => s + x) (Z.to_nat pos)) buf).
Proof.
  intros [_ Hwf] Hpos.
  apply (addToChannels_from buf [] pos x).
  eapply Forall_impl; [|exact Hwf]. simpl. intros ch ->. exact Hpos.
Qed.

Lemma buffer_wf_alter size buf (f : R -> R) p :
  buffer_wf size buf -> buffer_wf size (map (list_alter f p) buf).
Proof.
  intros [Hs Hall]. split; [assumption|].
  apply Forall_map. eapply Forall_impl; [|exact Hall].
  simpl. intros ch <-. now rewrite list_alter_length.
Qed.

Lemma getSample_alter buf (f : R -> R) p c j :
  getSample (map (list_alter f p) buf) c j =
  if Nat.eqb j p then option_map f (getSample buf c j) else getSample buf c j.
Proof.
  unfold getSample. rewrite nth_error_map.
  destruct (nth_error buf c) as [ch|]; simpl.
  - apply nth_error_list_alter.
  - now destruct (Nat.eqb j p).
Qed.

Lemma renderSample_in_range v buf size s :
  buffer_wf size buf -> (0 <= s < size)%Z ->
  renderSample v buf s =
  Some (set_phaseIndex (phaseIndex v + phaseIncrement v) v,
        map (list_alter (fun x => x + sampleAt v 0) (Z.to_nat s)) buf,
        (s + 1)%Z).
Proof.
  intros Hwf Hs. unfold renderSample.
  rewrite (addToChannels_all buf size s _ Hwf Hs). simpl.
  rewrite int_result_in by (destruct Hwf; unfold INT_MIN in *; lia). simpl.
  unfold sampleAt. simpl.
  replace (phaseIndex v + 0 * phaseIncrement v) with (phaseIndex v) by ring.
  reflexivity.
Qed.

Lemma set_phaseIndex_same v : set_phaseIndex (phaseIndex v) v = v.
Proof. now destruct v. Qed.

Lemma set_phaseIndex_twice x y v :
  set_phaseIndex x (set_phaseIndex y v) = set_phaseIndex x v.
Proof. reflexivity. Qed.

Lemma sampleAt_advance v i :
  sampleAt (set_phaseIndex (phaseIndex v + phaseIncrement v) v) i
  = sampleAt v (i + 1).
Proof.
  unfold sampleAt. simpl. rewrite plus_IZR.
  replace (phaseIndex v + phaseIncrement v + IZR i * phaseIncrement v)
    with (phaseIndex v + (IZR i + 1) * phaseIncrement v) by ring.
  reflexivity.
Qed.

Lemma sampleAt_shift v (n i : Z) :
  sampleAt (set_phaseIndex (phaseIndex v + IZR n * phaseIncrement v) v) i
  = sampleAt v (n + i).
Proof.
  unfold sampleAt. simpl. rewrite plus_IZR.
  replace (phaseIndex v + IZR n * phaseIncrement v + IZR i * phaseIncrement v)
    with (phaseIndex v + (IZR n + IZR i) * phaseIncrement v) by ring.
  reflexivity.
Qed.

Lemma blockTerm_step v s k j :
  (0 <= s)%Z ->
  (if Nat.eqb j (Z.to_nat s) then sampleAt v 0 else 0)
  + blockTerm (set_phaseIndex (phaseIndex v + phaseIncrement v) v)
      (s + 1) (Z.of_nat k) j
  = blockTerm v s (Z.of_nat (S k)) j.
Proof.
  intros Hs. unfold blockTerm. rewrite sampleAt_advance.
  destruct (Nat.eqb_spec j (Z.to_nat s)) as [->|Hne].
  - rewrite Z2Nat.id by lia.
    replace (s + 1 <=? s)%Z with false by (symmetry; apply Z.leb_gt; lia).
    replace (s <=? s)%Z with true by (symmetry; apply Z.leb_le; lia).
    replace (s <? s + Z.of_nat (S k))%Z with true by (symmetry; apply Z.ltb_lt; lia).
    simpl. rewrite Z.sub_diag. ring.
  - assert (Hj : Z.of_nat j <> s) by lia.
    replace (Z.of_nat j - (s + 1) + 1)%Z with (Z.of_nat j - s)%Z by lia.
    replace (s + 1 + Z.of_nat k)%Z with (s + Z.of_nat (S k))%Z by lia.
    destruct (Z.leb_spec (s + 1) (Z.of_nat j)), (Z.leb_spec s (Z.of_nat j));
      try lia; simpl; ring.
Qed.

(** The sample loop over a block that lies inside the buffer: it returns,
    the phase has advanced [k] times, and every sample of the block has
    received its term. *)
Lemma renderLoop_block (k : nat) :
  forall v buf s size,
    buffer_wf size buf -> (0 <= s)%Z -> (s + Z.of_nat k <= size)%Z ->
    exists buf',
      renderLoop v buf s (Z.of_nat k) =
        Some (set_phaseIndex
                (phaseIndex v + IZR (Z.of_nat k) * phaseIncrement v) v, buf') /\
      buffer_wf size buf' /\
      length buf' = length buf /\
      forall c j,
        getSample buf' c j =
        option_map (fun x => x + blockTerm v s (Z.of_nat k) j) (getSample buf c j).
Proof.
  induction k as [|k IH]; intros v buf s size Hwf Hs Hend.
  - exists buf. rewrite renderLoop_step. simpl. repeat split; try tauto.
    + f_equal. f_equal. rewrite <- (set_phaseIndex_same v) at 1.
      f_equal. ring.
    + destruct Hwf; assumption.
    + destruct Hwf; assumption.
    + intros c j. unfold blockTerm.
      replace ((s <=? Z.of_nat j)%Z && (Z.of_nat j <? s + 0)%Z) with false.
      2:{ symmetry. apply andb_false_iff.
          destruct (Z.leb_spec s (Z.of_nat j)); [right|left; reflexivity].
          apply Z.ltb_ge. lia. }
      destruct (getSample buf c j); simpl; [f_equal; ring|reflexivity].
  - assert (Hmax : (size <= INT_MAX)%Z) by (destruct Hwf; assumption).
    rewrite renderLoop_step.
    replace (Z.of_nat (S k) - 1)%Z with (Z.of_nat k) by lia.
    rewrite (proj2 (in_int_iff (Z.of_nat k)))
      by (unfold INT_MIN, INT_MAX in *; lia).
    replace (0 <=? Z.of_nat k)%Z with true by (symmetry; apply Z.leb_le; lia).
    rewrite (renderSample_in_range v buf size s Hwf) by lia.
    set (v1 := set_phaseIndex (phaseIndex v + phaseIncrement v) v).
    set (buf1 := map _ buf).
    destruct (IH v1 buf1 (s + 1)%Z size) as (buf' & Hrun & Hwf' & Hlen & Hget).
    { apply buffer_wf_alter, Hwf. }
    { lia. }
    { lia. }
    exists buf'. split; [|split; [|split]].
    + rewrite Hrun. f_equal. f_equal. unfold v1.
      rewrite set_phaseIndex_twice. f_equal.
      change (phaseIndex (set_phaseIndex (phaseIndex v + phaseIncrement v) v))
        with (phaseIndex v + phaseIncrement v).
      change (phaseIncrement (set_phaseIndex (phaseIndex v + phaseIncrement v) v))
        with (phaseIncrement v).
      rewrite Nat2Z.inj_succ, succ_IZR. ring.
    + exact Hwf'.
    + rewrite Hlen. unfold buf1. apply length_map.
    + intros c j. rewrite Hget. unfold buf1. rewrite getSample_alter.
      rewrite <- (blockTerm_step v s k j Hs). fold v1.
      destruct (Nat.eqb j (Z.to_nat s)), (getSample buf c j);
        simpl; try reflexivity; f_equal; ring.
Qed.

Lemma getSample_in_range buf size c j :
  buffer_wf size buf -> (c < length buf)%nat -> (Z.of_nat j < size)%Z ->
  exists x, getSample buf c j = Some x.
Proof.
  intros [_ Hall] Hc Hj. unfold getSample.
  destruct (nth_error buf c) as [ch|] eqn:E.
  - simpl. rewrite Forall_forall in Hall.
    specialize (Hall ch (nth_error_In _ _ E)).
    destruct (nth_error ch j) as [x|] eqn:Ej; [now exists x|].
    apply nth_error_None in Ej. lia.
  - apply nth_error_None in E. lia.
Qed.

(** A render call on a sounding voice, over a block inside the buffer. *)
Lemma renderNextBlock_sounding v buf size s n :
  buffer_wf size buf ->
  approximatelyEqual (phaseIncrement v) 0 = false ->
  (0 <= n)%Z -> (0 <= s)%Z -> (s + n <= size)%Z ->
  exists buf',
    renderNextBlock v buf s n =
      Some (set_phaseIndex (phaseIndex v + IZR n * phaseIncrement v) v, buf') /\
    buffer_wf size buf' /\
    length buf' = length buf /\
    (forall c i, (c < length buf)%nat -> (0 <= i < n)%Z ->
       exists x,
         getSample buf c (Z.to_nat (s + i)) = Some x /\
         getSample buf' c (Z.to_nat (s + i)) = Some (x + sampleAt v i)) /\
    (forall c j, (Z.of_nat j < s \/ s + n <= Z.of_nat j)%Z ->
       getSample buf' c j = getSample buf c j).
Proof.
  intros Hwf Hinc Hn Hs Hend.
  destruct (renderLoop_block (Z.to_nat n) v buf s size Hwf Hs)
    as (buf' & Hrun & Hwf' & Hlen & Hget); [lia|].
  rewrite Z2Nat.id in Hrun, Hget by lia.
  exists buf'. split; [|split; [|split; [|split]]]; try assumption.
  - unfold renderNextBlock. rewrite Hinc. exact Hrun.
  - intros c i Hc Hi.
    destruct (getSample_in_range buf size c (Z.to_nat (s + i)) Hwf Hc)
      as [x Hx]; [lia|].
    exists x. split; [exact Hx|].
    rewrite Hget, Hx. simpl. unfold blockTerm. rewrite Z2Nat.id by lia.
    replace ((s <=? s + i)%Z && (s + i <? s + n)%Z) with true.
    2:{ symmetry. apply andb_true_iff.
        split; [apply Z.leb_le|apply Z.ltb_lt]; lia. }
    replace (s + i - s)%Z with i by lia. reflexivity.
  - intros c j Hj. rewrite Hget. unfold blockTerm.
    replace ((s <=? Z.of_nat j)%Z && (Z.of_nat j <? s + n)%Z) with false.
    2:{ symmetry. apply andb_false_iff.
        destruct Hj; [left; apply Z.leb_gt|right; apply Z.ltb_ge]; lia. }
    destruct (getSample buf c j); simpl; [f_equal; ring|reflexivity].
Qed.

(** C1 (amended): for every render call whose phase increment is not
    approximately equal to 0, with n >= 1 samples that lie inside the
    buffer, the voice processes exactly n samples in order: sample i is
    both waveforms at phase + i*phaseIncrement, blended linearly, scaled by
    the level, and added to what every channel holds at startSample + i;
    nothing else in the buffer changes; afterwards the phase is its initial
    value plus n*phaseIncrement, so a second render call adds the samples
    n, n+1, ... of the same wave. *)
Theorem renderNextBlock_adds_block (v : MorphingWaveformVoice)
    (buf : AudioBuffer) (size startSample n m : Z) :
  buffer_wf size buf ->
  approximatelyEqual (phaseIncrement v) 0 = false ->
  (1 <= n)%Z -> (0 <= startSample)%Z -> (0 <= m)%Z ->
  (startSample + n + m <= size)%Z ->
  exists v' buf' buf'',
    renderNextBlock v buf startSample n = Some (v', buf') /\
    v' = set_phaseIndex (phaseIndex v + IZR n * phaseIncrement v) v /\
    length buf' = length buf /\
    (forall c i, (c < length buf)%nat -> (0 <= i < n)%Z ->
       exists x,
         getSample buf c (Z.to_nat (startSample + i)) = Some x /\
         getSample buf' c (Z.to_nat (startSample + i)) =
           Some (x + (getWaveSample (wave_a v)
                        (phaseIndex v + IZR i * phaseIncrement v)
                      * (1 - wavePosition v)
                      + getWaveSample (wave_b v)
                          (phaseIndex v + IZR i * phaseIncrement v)
                        * wavePosition v) * level v)) /\
    (forall c j,
       (Z.of_nat j < startSample \/ startSample + n <= Z.of_nat j)%Z ->
       getSample buf' c j = getSample buf c j) /\
    renderNextBlock v' buf' (startSample + n) m =
      Some (set_phaseIndex (phaseIndex v + IZR (n + m) * phaseIncrement v) v,
            buf'') /\
    (forall c i, (c < length buf)%nat -> (0 <= i < m)%Z ->
       exists x,
         getSample buf' c (Z.to_nat (startSample + n + i)) = Some x /\
         getSample buf'' c (Z.to_nat (startSample + n + i)) =
           Some (x + sampleAt v (n + i))).
Proof.
  intros Hwf Hinc Hn Hs Hm Hend.
  destruct (renderNextBlock_sounding v buf size startSample n Hwf Hinc)
    as (buf' & Hrun & Hwf' & Hlen & Hin & Hout); try lia.
  set (v' := set_phaseIndex (phaseIndex v + IZR n * phaseIncrement v) v) in *.
  destruct (renderNextBlock_sounding v' buf' size (startSample + n) m Hwf' Hinc)
    as (buf'' & Hrun2 & _ & _ & Hin2 & _); try lia.
  exists v', buf', buf''.
  split; [exact Hrun|]. split; [reflexivity|]. split; [exact Hlen|].
  split; [exact Hin|]. split; [exact Hout|]. split.
  - rewrite Hrun2. f_equal. f_equal. unfold v'.
    rewrite set_phaseIndex_twice. f_equal.
    change (phaseIndex (set_phaseIndex ?x v)) with x.
    change (phaseIncrement (set_phaseIndex ?x v)) with (phaseIncrement v).
    rewrite plus_IZR. ring.
  - intros c i Hc Hi. rewrite <- Hlen in Hc.
    destruct (Hin2 c i Hc Hi) as (x & Hx & Hx').
    exists x. split; [exact Hx|]. rewrite Hx'. unfold v'.
    now rewrite sampleAt_shift.
Qed.

Lemma DBL_MIN_lt_1 : DBL_MIN < 1.
Proof.
  unfold DBL_MIN. rewrite <- Rinv_1. apply Rinv_lt_contravar.
  - rewrite Rmult_1_l. apply pow_lt; lra.
  - apply Rlt_pow_R1; [lra|lia].
Qed.

Lemma approximatelyEqual_0_false a :
  DBL_MIN < Rabs a -> approximatelyEqual a 0 = false.
Proof.
  intros H. destruct (approximatelyEqual a 0) eqn:E; [|reflexivity].
  apply approximatelyEqual_0 in E. lra.
Qed.

Lemma approximatelyEqual_1_0 : approximatelyEqual 1 0 = false.
Proof.
  apply approximatelyEqual_0_false. rewrite Rabs_R1. apply DBL_MIN_lt_1.
Qed.

Lemma approximatelyEqual_DBL_MIN : approximatelyEqual DBL_MIN 0 = true.
Proof.
  apply approximatelyEqual_0. rewrite Rabs_pos_eq; [lra|].
  apply Rlt_le, DBL_MIN_pos.
Qed.

Lemma buffer_wf_demo : buffer_wf 2 [[0; 0]].
Proof.
  split; [unfold INT_MAX; lia|]. repeat constructor.
Qed.

Lemma renderNextBlock_adds_block_witness :
  exists v' buf' buf'',
    renderNextBlock soundingVoice [[0; 0]] 0 1 = Some (v', buf') /\
    v' = set_phaseIndex
           (phaseIndex soundingVoice + IZR 1 * phaseIncrement soundingVoice)
           soundingVoice /\
    length buf' = length [[0; 0]] /\
    (forall c i, (c < length [[0; 0]])%nat -> (0 <= i < 1)%Z ->
       exists x,
         getSample [[0; 0]] c (Z.to_nat (0 + i)) = Some x /\
         getSample buf' c (Z.to_nat (0 + i)) =
           Some (x + (getWaveSample (wave_a soundingVoice)
                        (phaseIndex soundingVoice
                         + IZR i * phaseIncrement soundingVoice)
                      * (1 - wavePosition soundingVoice)
                      + getWaveSample (wave_b soundingVoice)
                          (phaseIndex soundingVoice
                           + IZR i * phaseIncrement soundingVoice)
                        * wavePosition soundingVoice) * level soundingVoice)) /\
    (forall c j,
       (Z.of_nat j < 0 \/ 0 + 1 <= Z.of_nat j)%Z ->
       getSample buf' c j = getSample [[0; 0]] c j) /\
    renderNextBlock v' buf' (0 + 1) 1 =
      Some (set_phaseIndex
              (phaseIndex soundingVoice
               + IZR (1 + 1) * phaseIncrement soundingVoice) soundingVoice,
            buf'') /\
    (forall c i, (c < length [[0; 0]])%nat -> (0 <= i < 1)%Z ->
       exists x,
         getSample buf' c (Z.to_nat (0 + 1 + i)) = Some x /\
         getSample buf'' c (Z.to_nat (0 + 1 + i)) =
           Some (x + sampleAt soundingVoice (1 + i))).
Proof.
  apply (renderNextBlock_adds_block soundingVoice [[0; 0]] 2 0 1 1).
  - exact buffer_wf_demo.
  - exact approximatelyEqual_1_0.
  - lia.
  - lia.
  - lia.
  - lia.
Defined.

(** C1 (as stated) fails for a phase increment that is not 0 but
    approximately 0: the voice below has increment [DBL_MIN] and a square
    wave of value 1 at its phase, yet a render call of one sample returns
    the buffer and the phase as they were. *)
Lemma renderNextBlock_skips_tiny_increment :
  phaseIncrement tinyVoice <> 0 /\
  sampleAt tinyVoice 0 = 1 /\
  renderNextBlock tinyVoice [[0]] 0 1 = Some (tinyVoice, [[0]]) /\
  getSample [[0]] 0 0 <> Some (0 + sampleAt tinyVoice 0) /\
  phaseIndex tinyVoice <> phaseIndex tinyVoice + 1 * phaseIncrement tinyVoice.
Proof.
  pose proof DBL_MIN_pos as Hpos.
  assert (Hs : sampleAt tinyVoice 0 = 1).
  { unfold sampleAt, tinyVoice. simpl.
    replace (0 + 0 * DBL_MIN) with 0 by ring.
    unfold getWaveSample, squareValue, Rltb. simpl. rewrite sin_0.
    destruct (Rlt_dec 0 0); [lra|]. simpl. ring. }
  split; [simpl; lra|]. split; [exact Hs|]. split; [|split].
  - unfold renderNextBlock. simpl phaseIncrement.
    now rewrite approximatelyEqual_DBL_MIN.
  - rewrite Hs. simpl. intros H. injection H as H. lra.
  - simpl. lra.
Qed.

(** ** The silence gate *)

(** C10: whether a render call produces output is decided by the
    approximate comparison of the phase increment with 0.  For a block of
    n >= 1 samples inside the buffer: when the increment is approximately
    0 the call returns voice and buffer as they were; when it is not, the
    call adds to every channel at each position startSample + i of the
    block the sample of step i, leaves the other samples alone and moves
    the phase by n increments, which is a real change; so the call
    returns voice and buffer as they were exactly when the increment is
    approximately 0.  There is an increment different from 0 (the
    smallest normal double) with which every render call leaves voice and
    buffer as they were. *)
Theorem render_gate_is_approximate (v : MorphingWaveformVoice)
    (buf : AudioBuffer) (size startSample n : Z) :
  buffer_wf size buf ->
  (1 <= n)%Z -> (0 <= startSample)%Z -> (startSample + n <= size)%Z ->
  (approximatelyEqual (phaseIncrement v) 0 = true ->
   renderNextBlock v buf startSample n = Some (v, buf)) /\
  (approximatelyEqual (phaseIncrement v) 0 = false ->
   exists buf',
     renderNextBlock v buf startSample n =
       Some (set_phaseIndex (phaseIndex v + IZR n * phaseIncrement v) v, buf')
     /\ phaseIndex v + IZR n * phaseIncrement v <> phaseIndex v
     /\ length buf' = length buf
     /\ (forall c i, (c < length buf)%nat -> (0 <= i < n)%Z ->
          exists x,
            getSample buf c (Z.to_nat (startSample + i)) = Some x /\
            getSample buf' c (Z.to_nat (startSample + i)) =
              Some (x + (getWaveSample (wave_a v)
                           (phaseIndex v + IZR i * phaseIncrement v)
                         * (1 - wavePosition v)
                         + getWaveSample (wave_b v)
                             (phaseIndex v + IZR i * phaseIncrement v)
                           * wavePosition v) * level v))
     /\ (forall c j,
          (Z.of_nat j < startSample \/ startSample + n <= Z.of_nat j)%Z ->
          getSample buf' c j = getSample buf c j)) /\
  (renderNextBlock v buf startSample n = Some (v, buf)
   <-> approximatelyEqual (phaseIncrement v) 0 = true) /\
  (exists inc,
     inc <> 0 /\
     forall buf0 s0 n0,
       renderNextBlock (set_phaseIncrement inc v) buf0 s0 n0
       = Some (set_phaseIncrement inc v, buf0)).
Proof.
  intros Hwf Hn Hs Hend.
  assert (Hmove : approximatelyEqual (phaseIncrement v) 0 = false ->
                  phaseIndex v + IZR n * phaseIncrement v <> phaseIndex v).
  { intros Hinc Heq. apply approximatelyEqual_0_nonzero in Hinc.
    assert (IZR n * phaseIncrement v = 0) as H0 by lra.
    apply Rmult_integral in H0. destruct H0 as [H0|H0]; [|contradiction].
    apply eq_IZR_R0 in H0. lia. }
  assert (Hquiet : approximatelyEqual (phaseIncrement v) 0 = true ->
                   renderNextBlock v buf startSample n = Some (v, buf)).
  { intros E. unfold renderNextBlock. now rewrite E. }
  split; [exact Hquiet|]. split; [|split].
  - intros E.
    destruct (renderNextBlock_sounding v buf size startSample n Hwf E)
      as (buf' & Hrun & _ & Hlen & Hin & Hout); try lia.
    exists buf'. split; [exact Hrun|]. split; [exact (Hmove E)|].
    split; [exact Hlen|]. split; [exact Hin|exact Hout].
  - split; [|exact Hquiet].
    intros Hrun. destruct (approximatelyEqual (phaseIncrement v) 0) eqn:E;
      [reflexivity|]. exfalso.
    destruct (renderNextBlock_sounding v buf size startSample n Hwf E)
      as (buf' & Hrun' & _); try lia.
    rewrite Hrun in Hrun'. injection Hrun' as Hv _.
    apply (Hmove eq_refl). rewrite Hv at 3. reflexivity.
  - exists DBL_MIN. split.
    + pose proof DBL_MIN_pos. lra.
    + intros buf0 s0 n0. unfold renderNextBlock. simpl phaseIncrement.
      now rewrite approximatelyEqual_DBL_MIN.
Qed.

Lemma render_gate_is_approximate_witness :
  (approximatelyEqual (phaseIncrement soundingVoice) 0 = true ->
   renderNextBlock soundingVoice [[0; 0]] 0 2 = Some (soundingVoice, [[0; 0]])) /\
  (approximatelyEqual (phaseIncrement soundingVoice) 0 = false ->
   exists buf',
     renderNextBlock soundingVoice [[0; 0]] 0 2 =
       Some (set_phaseIndex
               (phaseIndex soundingVoice + IZR 2 * phaseIncrement soundingVoice)
               soundingVoice, buf')
     /\ phaseIndex soundingVoice + IZR 2 * phaseIncrement soundingVoice
        <> phaseIndex soundingVoice
     /\ length buf' = length [[0; 0]]
     /\ (forall c i, (c < length [[0; 0]])%nat -> (0 <= i < 2)%Z ->
          exists x,
            getSample [[0; 0]] c (Z.to_nat (0 + i)) = Some x /\
            getSample buf' c (Z.to_nat (0 + i)) =
              Some (x + (getWaveSample (wave_a soundingVoice)
                           (phaseIndex soundingVoice
                            + IZR i * phaseIncrement soundingVoice)
                         * (1 - wavePosition soundingVoice)
                         + getWaveSample (wave_b soundingVoice)
                             (phaseIndex soundingVoice
                              + IZR i * phaseIncrement soundingVoice)
                           * wavePosition soundingVoice)
                        * level soundingVoice))
     /\ (forall c j,
          (Z.of_nat j < 0 \/ 0 + 2 <= Z.of_nat j)%Z ->
          getSample buf' c j = getSample [[0; 0]] c j)) /\
  (renderNextBlock soundingVoice [[0; 0]] 0 2 = Some (soundingVoice, [[0; 0]])
   <-> approximatelyEqual (phaseIncrement soundingVoice) 0 = true) /\
  (exists inc,
     inc <> 0 /\
     forall buf0 s0 n0,
       renderNextBlock (set_phaseIncrement inc soundingVoice) buf0 s0 n0
       = Some (set_phaseIncrement inc soundingVoice, buf0)).
Proof.
  apply (render_gate_is_approximate soundingVoice [[0; 0]] 2 0 2).
  - exact buffer_wf_demo.
  - lia.
  - lia.
  - lia.
Defined.

(** ** Empty blocks *)

(** C7 (amended): for every voice state and every sample count n with
    INT_MIN < n <= 0, a render call returns normally with the voice (its
    phase included) and the buffer as they were, whether or not the phase
    increment is zero. *)
Theorem renderNextBlock_empty_block (v : MorphingWaveformVoice)
    (buf : AudioBuffer) (startSample numSamples : Z) :
  (INT_MIN < numSamples <= 0)%Z ->
  renderNextBlock v buf startSample numSamples = Some (v, buf).
Proof.
  intros H. unfold renderNextBlock.
  destruct (approximatelyEqual (phaseIncrement v) 0); simpl; [reflexivity|].
  rewrite renderLoop_step.
  rewrite (proj2 (in_int_iff (numSamples - 1)))
    by (unfold INT_MIN, INT_MAX in *; lia).
  replace (0 <=? numSamples - 1)%Z with false by (symmetry; apply Z.leb_gt; lia).
  reflexivity.
Qed.

Lemma renderNextBlock_empty_block_witness :
  renderNextBlock soundingVoice [[0; 0]] 0 (-3) = Some (soundingVoice, [[0; 0]]).
Proof.
  apply (renderNextBlock_empty_block soundingVoice [[0; 0]] 0 (-3)).
  unfold INT_MIN. lia.
Defined.

(** C7 (as stated) fails at the least 32-bit count: on a sounding voice
    the decrement that opens the loop overflows, and the call does not
    return the voice and the buffer. *)
Lemma renderNextBlock_int_min_count :
  renderNextBlock soundingVoice [[0; 0]] 0 INT_MIN = None /\
  renderNextBlock soundingVoice [[0; 0]] 0 INT_MIN
  <> Some (soundingVoice, [[0; 0]]).
Proof.
  assert (H : renderNextBlock soundingVoice [[0; 0]] 0 INT_MIN = None).
  { unfold renderNextBlock. simpl phaseIncrement.
    rewrite approximatelyEqual_1_0. simpl negb. cbv iota.
    rewrite renderLoop_step. reflexivity. }
  split; [exact H|]. rewrite H. discriminate.
Qed.

(** ** Periodicity and continuity of triangle and sawtooth *)

Lemma sin_period_Z x (k : Z) : sin (x + 2 * IZR k * PI) = sin x.
Proof.
  destruct (Z_le_gt_dec 0 k) as [Hk|Hk].
  - rewrite <- (Z2Nat.id k Hk), <- INR_IZR_INZ. apply sin_period.
  - rewrite <- (sin_period (x + 2 * IZR k * PI) (Z.to_nat (- k))).
    rewrite INR_IZR_INZ, Z2Nat.id, opp_IZR by lia. f_equal. ring.
Qed.

Lemma asin_sin_fold x :
  - (3 * PI / 2) <= x <= 3 * PI / 2 -> asin (sin x) = fold_angle x.
Proof.
  intros [Hl Hu]. pose proof PI_pos as Hpi. unfold fold_angle.
  destruct (Rle_dec x (- (PI / 2))); [|destruct (Rle_dec x (PI / 2))].
  - replace (sin x) with (sin (- PI - x)).
    + apply asin_sin. lra.
    + replace (- PI - x) with (- (x + PI)) by ring.
      rewrite sin_neg, neg_sin. ring.
  - apply asin_sin. lra.
  - rewrite <- (sin_PI_x x). apply asin_sin. lra.
Qed.

Lemma fold_angle_lipschitz x y :
  Rabs (fold_angle x - fold_angle y) <= Rabs (x - y).
Proof.
  pose proof PI_pos as Hpi. unfold fold_angle.
  destruct (Rle_dec x (- (PI / 2))); destruct (Rle_dec x (PI / 2));
    destruct (Rle_dec y (- (PI / 2))); destruct (Rle_dec y (PI / 2));
    unfold Rabs; repeat destruct (Rcase_abs _); lra.
Qed.

(** Every angle is a whole number of turns away from [-pi/2, 3pi/2). *)
Lemma angle_turns x :
  exists k : Z, - (PI / 2) <= x - 2 * IZR k * PI < 3 * PI / 2.
Proof.
  pose proof PI_pos as Hpi.
  exists (Zfloor ((x + PI / 2) / (2 * PI))).
  destruct (Zfloor_bound ((x + PI / 2) / (2 * PI))) as [Hl Hu].
  set (k := IZR (Zfloor ((x + PI / 2) / (2 * PI)))) in *.
  assert (H2 : 0 < 2 * PI) by lra.
  assert (E : x + PI / 2 = (x + PI / 2) / (2 * PI) * (2 * PI)) by (field; lra).
  split.
  - apply (Rmult_le_compat_r (2 * PI)) in Hl; [|lra]. lra.
  - apply (Rmult_lt_compat_r (2 * PI)) in Hu; [|lra]. lra.
Qed.

Lemma triangleValue_lipschitz_near x0 :
  exists d, 0 < d /\
    forall x, Rabs (x - x0) < d ->
      Rabs (triangleValue x - triangleValue x0) <= Rabs (x - x0).
Proof.
  pose proof PI_pos as Hpi.
  destruct (angle_turns x0) as [k [Hl Hu]].
  exists (Rmin PI (3 * PI / 2 - (x0 - 2 * IZR k * PI))). split.
  - apply Rmin_pos; lra.
  - intros x Hx.
    assert (Hx1 : Rabs (x - x0) < PI)
      by (eapply Rlt_le_trans; [exact Hx|apply Rmin_l]).
    assert (Hx2 : Rabs (x - x0) < 3 * PI / 2 - (x0 - 2 * IZR k * PI))
      by (eapply Rlt_le_trans; [exact Hx|apply Rmin_r]).
    apply Rabs_def2 in Hx1. apply Rabs_def2 in Hx2.
    unfold triangleValue, MathConstants.pi.
    rewrite <- (sin_period_Z x (- k)), <- (sin_period_Z x0 (- k)).
    rewrite opp_IZR.
    rewrite !asin_sin_fold by lra.
    rewrite <- Rmult_minus_distr_l, Rabs_mult.
    assert (H2 : 0 < 2 / PI < 1).
    { split; [apply Rdiv_lt_0_compat; lra|].
      apply Rmult_lt_reg_r with PI; [lra|].
      unfold Rdiv. rewrite Rmult_assoc, Rinv_l by lra.
      pose proof PI2_1. lra. }
    rewrite (Rabs_pos_eq (2 / PI)) by lra.
    eapply Rle_trans.
    + apply Rmult_le_compat_l; [lra|apply fold_angle_lipschitz].
    + replace (x + 2 * - IZR k * PI - (x0 + 2 * - IZR k * PI)) with (x - x0)
        by ring.
      pose proof (Rabs_pos (x - x0)). nra.
Qed.

Lemma triangleValue_continuity : continuity triangleValue.
Proof.
  intros x0 eps Heps.
  destruct (triangleValue_lipschitz_near x0) as (d & Hd & Hlip).
  exists (Rmin d eps). split; [apply Rmin_pos; assumption|].
  intros x [_ Hx]. simpl in Hx. unfold Rdist in Hx.
  simpl. unfold Rdist.
  eapply Rle_lt_trans.
  - apply Hlip. eapply Rlt_le_trans; [exact Hx|apply Rmin_l].
  - eapply Rlt_le_trans; [exact Hx|apply Rmin_r].
Qed.

Lemma triangleValue_period x : triangleValue (x + 2 * PI) = triangleValue x.
Proof.
  unfold triangleValue. replace (x + 2 * PI) with (x + 2 * IZR 1 * PI) by ring.
  now rewrite sin_period_Z.
Qed.

Lemma Ztrunc_between_pos y (k : Z) :
  0 <= y -> IZR k <= y < IZR k + 1 -> Ztrunc y = k.
Proof.
  intros H0 Hk. unfold Ztrunc.
  destruct (Rle_dec 0 y); [|contradiction]. now apply Zfloor_eq.
Qed.

Lemma Ztrunc_between_neg y (k : Z) :
  y < 0 -> IZR k - 1 < y <= IZR k -> Ztrunc y = k.
Proof.
  intros H0 Hk. unfold Ztrunc.
  destruct (Rle_dec 0 y); [lra|]. now apply Zceil_eq.
Qed.

Lemma quotient_sign x : (0 <= x <-> 0 <= x / (2 * PI)).
Proof.
  pose proof PI_pos as Hpi.
  assert (Hi : 0 < / (2 * PI)) by (apply Rinv_0_lt_compat; lra).
  unfold Rdiv. split; intros H.
  - apply Rmult_le_pos; lra.
  - apply (Rmult_le_compat_r (2 * PI)) in H; [|lra].
    rewrite Rmult_0_l, Rmult_assoc, Rinv_l in H; lra.
Qed.

(** C8: the triangle generator has period 2*pi and is continuous at every
    real angle, but the sawtooth generator does not repeat after 2*pi at
    negative angles: at -pi it returns -4, and one period later, at pi, it
    returns 0. *)
Theorem sawtooth_period_fails_below_zero (angle : R) :
  triangleValue (angle + 2 * PI) = triangleValue angle /\
  continuity_pt triangleValue angle /\
  sawValue (- PI) = -4 /\
  sawValue (- PI + 2 * PI) = 0 /\
  sawValue (- PI + 2 * PI) <> sawValue (- PI).
Proof.
  pose proof PI_pos as Hpi.
  assert (Hlow : sawValue (- PI) = -4).
  { unfold sawValue, MathConstants.pi, MathConstants.twoPi, std_fmod.
    replace (- PI / (2 * PI)) with (- (1 / 2)) by (field; lra).
    rewrite (Ztrunc_between_neg (- (1 / 2)) 0) by (simpl; lra).
    field. lra. }
  assert (Hhigh : sawValue (- PI + 2 * PI) = 0).
  { replace (- PI + 2 * PI) with PI by ring.
    unfold sawValue, MathConstants.pi, MathConstants.twoPi, std_fmod.
    replace (PI / (2 * PI)) with (1 / 2) by (field; lra).
    rewrite (Ztrunc_between_pos (1 / 2) 0) by (simpl; lra).
    field. lra. }
  split; [apply triangleValue_period|].
  split; [apply triangleValue_continuity|].
  split; [exact Hlow|]. split; [exact Hhigh|].
  rewrite Hlow, Hhigh. lra.
Qed.

(** ** The morph fields across the operations *)

Lemma renderSample_frame v buf s v1 buf1 s1 :
  renderSample v buf s = Some (v1, buf1, s1) ->
  v1 = set_phaseIndex (phaseIndex v + phaseIncrement v) v.
Proof.
  unfold renderSample.
  destruct (addToChannels _ _ _ _ _); simpl; [|discriminate].
  destruct (int_result (s + 1)); simpl; [|discriminate].
  intros H. now injection H as <- _ _.
Qed.

Lemma renderLoop_frame (k : nat) :
  forall v buf s n v' buf',
    (n <= Z.of_nat k)%Z ->
    renderLoop v buf s n = Some (v', buf') ->
    v' = set_phaseIndex (phaseIndex v') v.
Proof.
  induction k as [|k IH]; intros v buf s n v' buf' Hn; rewrite renderLoop_step;
    destruct (in_int (n - 1)); try discriminate;
    destruct (Z.leb_spec 0 (n - 1)) as [Hge|Hlt]; try lia.
  - intros H. injection H as <- _. symmetry. apply set_phaseIndex_same.
  - destruct (renderSample v buf s) as [[[v1 buf1] s1]|] eqn:E; [|discriminate].
    intros H. apply IH in H; [|lia].
    apply renderSample_frame in E. subst v1. exact H.
  - intros H. injection H as <- _. symmetry. apply set_phaseIndex_same.
Qed.

Lemma renderNextBlock_frame v buf s n v' buf' :
  renderNextBlock v buf s n = Some (v', buf') ->
  v' = set_phaseIndex (phaseIndex v') v.
Proof.
  unfold renderNextBlock.
  destruct (negb (approximatelyEqual (phaseIncrement v) 0)).
  - apply (renderLoop_frame (Z.to_nat n)). lia.
  - intros H. injection H as <- _. symmetry. apply set_phaseIndex_same.
Qed.

Lemma std_clamp_range v lo hi : (lo <= hi)%Z -> (lo <= std_clamp v lo hi <= hi)%Z.
Proof.
  intros H. unfold std_clamp.
  destruct (Z.ltb_spec v lo); [lia|]. destruct (Z.ltb_spec hi v); lia.
Qed.

Lemma updateMorphFunctions_result p v v' :
  updateMorphFunctions p v = Some v' ->
  v' = set_morph (Zfloor p) (std_clamp (Zfloor p + 1) 0 3) (p - IZR (Zfloor p)) v.
Proof.
  unfold updateMorphFunctions. rewrite static_cast_int_floor.
  unfold int_result. destruct (in_int (Zfloor p)); simpl; [|discriminate].
  destruct (in_int (Zfloor p + 1)); simpl; [|discriminate].
  intros H. now injection H as <-.
Qed.

(** C4 (amended): the constructed voice has fraction 0, index 0 and high
    index 0; starting a note, stopping it and rendering (when it returns)
    leave the three morph fields as they are; a morph update with a
    position whose floor and its successor are 32-bit integers succeeds
    and leaves the fraction in [0,1] and the high index equal to
    clamp(index + 1, 0, 3), hence in {0,..,3}, so the high index saturates
    at the last waveform; and after a morph update with a position in
    [0,4) the index lies in {0,1,2,3}. *)
Theorem morph_fields_invariant (sampleRate : R) (v : MorphingWaveformVoice)
    (p : R) :
  (wavePosition (newVoice sampleRate), wave_a (newVoice sampleRate),
   wave_b (newVoice sampleRate)) = (0, 0%Z, 0%Z) /\
  (forall n velocity wheel,
     let v' := startNote n velocity wheel v in
     (wavePosition v', wave_a v', wave_b v')
     = (wavePosition v, wave_a v, wave_b v)) /\
  (forall velocity allowTailOff,
     let v' := stopNote velocity allowTailOff v in
     (wavePosition v', wave_a v', wave_b v')
     = (wavePosition v, wave_a v, wave_b v)) /\
  (forall buf startSample numSamples v' buf',
     renderNextBlock v buf startSample numSamples = Some (v', buf') ->
     (wavePosition v', wave_a v', wave_b v')
     = (wavePosition v, wave_a v, wave_b v)) /\
  ((INT_MIN <= Zfloor p < INT_MAX)%Z ->
   exists v',
     updateMorphFunctions p v = Some v' /\
     0 <= wavePosition v' <= 1 /\
     wave_b v' = std_clamp (wave_a v' + 1) 0 3 /\
     (0 <= wave_b v' <= 3)%Z) /\
  (0 <= p < 4 ->
   exists v',
     updateMorphFunctions p v = Some v' /\
     0 <= wavePosition v' <= 1 /\
     (0 <= wave_a v' <= 3)%Z /\
     wave_b v' = std_clamp (wave_a v' + 1) 0 3).
Proof.
  split; [reflexivity|]. split; [reflexivity|]. split; [reflexivity|].
  split; [|split].
  - intros buf s n v' buf' H. apply renderNextBlock_frame in H.
    rewrite H. reflexivity.
  - intros Hp. eexists. split.
    + apply updateMorphFunctions_in_range. exact Hp.
    + simpl. destruct (Zfloor_bound p). split; [lra|]. split; [reflexivity|].
      apply std_clamp_range. lia.
  - intros Hp.
    assert (Hf : (0 <= Zfloor p <= 3)%Z).
    { destruct (Zfloor_bound p) as [Hl Hu]. split.
      - apply Zfloor_lub. simpl. lra.
      - assert (Zfloor p < 4)%Z; [|lia]. apply lt_IZR. lra. }
    eexists. split.
    + apply updateMorphFunctions_in_range. unfold INT_MIN, INT_MAX. lia.
    + simpl. destruct (Zfloor_bound p). split; [lra|]. split; [exact Hf|].
      reflexivity.
Qed.

Lemma morph_fields_invariant_witness :
  (exists v',
     updateMorphFunctions (- (5 / 2)) soundingVoice = Some v' /\
     0 <= wavePosition v' <= 1 /\
     wave_b v' = std_clamp (wave_a v' + 1) 0 3 /\
     (0 <= wave_b v' <= 3)%Z) /\
  (exists v',
     updateMorphFunctions (3 / 2) soundingVoice = Some v' /\
     0 <= wavePosition v' <= 1 /\
     (0 <= wave_a v' <= 3)%Z /\
     wave_b v' = std_clamp (wave_a v' + 1) 0 3).
Proof.
  split.
  - apply (morph_fields_invariant 44100 soundingVoice (- (5 / 2))).
    rewrite (Zfloor_small (- (5 / 2)) (-3)) by lra.
    unfold INT_MIN, INT_MAX. lia.
  - apply (morph_fields_invariant 44100 soundingVoice (3 / 2)). lra.
Defined.

(** The low index itself is not clamped: position 4 gives index 4, and
    position -1 gives index -1 with high index 0. *)
Lemma updateMorphFunctions_index_unclamped v :
  option_map (fun v' => (wave_a v', wave_b v')) (updateMorphFunctions 4 v)
  = Some (4%Z, 3%Z) /\
  option_map (fun v' => (wave_a v', wave_b v')) (updateMorphFunctions (-1) v)
  = Some ((-1)%Z, 0%Z).
Proof.
  split.
  - rewrite updateMorphFunctions_in_range;
      rewrite (Zfloor_small 4 4) by lra; [reflexivity|].
    unfold INT_MIN, INT_MAX. lia.
  - rewrite updateMorphFunctions_in_range;
      rewrite (Zfloor_small (-1) (-1)) by lra; [reflexivity|].
    unfold INT_MIN, INT_MAX. lia.
Qed.

(** C4 (as stated) fails right after construction, where the high index
    is 0 while clamp(index + 1, 0, 3) is 1; after a morph update with
    position 4, where the index is 4; and at position 2^31 - 1, where
    index + 1 is not a 32-bit integer and the update is undefined. *)
Lemma morph_invariant_broken :
  wave_b (newVoice 44100) <> std_clamp (wave_a (newVoice 44100) + 1) 0 3 /\
  option_map (fun v' => (wave_a v', wave_b v'))
    (updateMorphFunctions 4 (newVoice 44100)) = Some (4%Z, 3%Z) /\
  updateMorphFunctions 2147483647 (newVoice 44100) = None.
Proof.
  split; [|split].
  - simpl. discriminate.
  - apply updateMorphFunctions_index_unclamped.
  - unfold updateMorphFunctions.
    rewrite static_cast_int_floor, (ZfloorZ 2147483647). reflexivity.
Qed.

(** * Further properties of the voice *)

(** ** Splitting a block *)

Lemma renderSample_next v buf s v1 buf1 s1 :
  renderSample v buf s = Some (v1, buf1, s1) -> s1 = (s + 1)%Z.
Proof.
  unfold renderSample.
  destruct (addToChannels _ _ _ _ _); simpl; [|discriminate].
  unfold int_result. destruct (in_int (s + 1)); simpl; [|discriminate].
  intros H. now injection H as _ _ <-.
Qed.

Lemma renderLoop_zero v buf s : renderLoop v buf s 0 = Some (v, buf).
Proof. rewrite renderLoop_step. reflexivity. Qed.

Lemma renderLoop_split (k : nat) :
  forall v buf s m,
    (0 <= m)%Z -> (Z.of_nat k + m <= INT_MAX + 1)%Z ->
    renderLoop v buf s (Z.of_nat k + m) =
    match renderLoop v buf s (Z.of_nat k) with
    | Some (v', buf') => renderLoop v' buf' (s + Z.of_nat k) m
    | None => None
    end.
Proof.
  induction k as [|k IH]; intros v buf s m Hm Hmax.
  - rewrite renderLoop_zero. simpl Z.of_nat.
    now rewrite Z.add_0_l, Z.add_0_r.
  - rewrite (renderLoop_step v buf s (Z.of_nat (S k) + m)).
    rewrite (renderLoop_step v buf s (Z.of_nat (S k))).
    replace (Z.of_nat (S k) + m - 1)%Z with (Z.of_nat k + m)%Z by lia.
    replace (Z.of_nat (S k) - 1)%Z with (Z.of_nat k) by lia.
    rewrite (proj2 (in_int_iff (Z.of_nat k + m)))
      by (unfold INT_MIN, INT_MAX in *; lia).
    rewrite (proj2 (in_int_iff (Z.of_nat k)))
      by (unfold INT_MIN, INT_MAX in *; lia).
    replace (0 <=? Z.of_nat k + m)%Z with true by (symmetry; apply Z.leb_le; lia).
    replace (0 <=? Z.of_nat k)%Z with true by (symmetry; apply Z.leb_le; lia).
    destruct (renderSample v buf s) as [[[v1 buf1] s1]|] eqn:E; [|reflexivity].
    apply renderSample_next in E. subst s1.
    rewrite IH by lia.
    replace (s + 1 + Z.of_nat k)%Z with (s + Z.of_nat (S k))%Z by lia.
    reflexivity.
Qed.

Lemma renderLoop_increment v buf s n v' buf' :
  renderLoop v buf s n = Some (v', buf') -> phaseIncrement v' = phaseIncrement v.
Proof.
  intros H. apply (renderLoop_frame (Z.to_nat n)) in H; [|lia].
  rewrite H. reflexivity.
Qed.

(** X1: a block may be rendered in two parts.  For counts n, m >= 0 whose
    sum is an [int], rendering n + m samples gives the same voice and the
    same buffer, or the same failure, as rendering n samples and then m
    samples from position startSample + n. *)
Theorem renderNextBlock_split (v : MorphingWaveformVoice) (buf : AudioBuffer)
    (startSample n m : Z) :
  (0 <= n)%Z -> (0 <= m)%Z -> (n + m <= INT_MAX)%Z ->
  renderNextBlock v buf startSample (n + m) =
  match renderNextBlock v buf startSample n with
  | Some (v', buf') => renderNextBlock v' buf' (startSample + n) m
  | None => None
  end.
Proof.
  intros Hn Hm Hmax. unfold renderNextBlock.
  destruct (approximatelyEqual (phaseIncrement v) 0) eqn:E; simpl.
  - rewrite E. reflexivity.
  - rewrite <- (Z2Nat.id n Hn).
    rewrite renderLoop_split by (rewrite ?Z2Nat.id; lia).
    destruct (renderLoop v buf startSample (Z.of_nat (Z.to_nat n)))
      as [[v' buf']|] eqn:E1; [|reflexivity].
    apply renderLoop_increment in E1. rewrite E1, E. reflexivity.
Qed.

Lemma renderNextBlock_split_witness :
  renderNextBlock soundingVoice [[0; 0]] 0 (1 + 1) =
  match renderNextBlock soundingVoice [[0; 0]] 0 1 with
  | Some (v', buf') => renderNextBlock v' buf' (0 + 1) 1
  | None => None
  end.
Proof.
  apply (renderNextBlock_split soundingVoice [[0; 0]] 0 1 1);
    unfold INT_MAX; lia.
Defined.

(** ** Blocks that leave the buffer *)

Lemma renderSample_outside v (buf : AudioBuffer) size s :
  buffer_wf size buf -> buf <> [] -> (s < 0 \/ size <= s)%Z ->
  renderSample v buf s = None.
Proof.
  intros [_ Hall] Hne Hs. unfold renderSample.
  destruct buf as [|ch rest]; [contradiction|].
  rewrite addToChannels_step.
  replace (0 <? getNumChannels (ch :: rest))%Z with true
    by (symmetry; apply Z.ltb_lt; unfold getNumChannels; simpl length; lia).
  inversion Hall as [|? ? Hch _]; subst.
  unfold addSample.
  replace ((0 <=? 0)%Z && (0 <? getNumChannels (ch :: rest))%Z) with true
    by (symmetry; apply andb_true_iff; split;
        [reflexivity|apply Z.ltb_lt; unfold getNumChannels; simpl length; lia]).
  simpl.
  replace ((0 <=? s)%Z && (s <? Z.of_nat (length ch))%Z) with false.
  - reflexivity.
  - symmetry. apply andb_false_iff.
    destruct Hs; [left; apply Z.leb_gt|right; apply Z.ltb_ge]; lia.
Qed.

Lemma renderLoop_outside v (buf : AudioBuffer) size s n :
  buffer_wf size buf -> buf <> [] -> (1 <= n)%Z -> (s < 0 \/ size <= s)%Z ->
  renderLoop v buf s n = None.
Proof.
  intros Hwf Hne Hn Hs. rewrite renderLoop_step.
  destruct (in_int (n - 1)); [|reflexivity].
  replace (0 <=? n - 1)%Z with true by (symmetry; apply Z.leb_le; lia).
  now rewrite (renderSample_outside v buf size s Hwf Hne Hs).
Qed.

(** X2: the render call does not clip the block to the buffer.  On a
    sounding voice and a buffer with at least one channel, a block of
    n >= 1 samples that starts before position 0 or ends after the last
    sample runs into an access outside the buffer. *)
Theorem renderNextBlock_outside_buffer (v : MorphingWaveformVoice)
    (buf : AudioBuffer) (size startSample n : Z) :
  buffer_wf size buf -> buf <> [] ->
  approximatelyEqual (phaseIncrement v) 0 = false ->
  (1 <= n)%Z -> (startSample < 0 \/ size < startSample + n)%Z ->
  renderNextBlock v buf startSample n = None.
Proof.
  intros Hwf Hne Hinc Hn Hout. unfold renderNextBlock. rewrite Hinc. simpl.
  destruct (Z_lt_le_dec startSample 0) as [Hneg|Hpos].
  { apply (renderLoop_outside v buf size); auto. }
  destruct (Z_le_gt_dec size startSample) as [Hpast|Hin].
  { apply (renderLoop_outside v buf size); auto. }
  destruct (in_int (n - 1)) eqn:Eint.
  2:{ rewrite renderLoop_step, Eint. reflexivity. }
  apply in_int_iff in Eint.
  set (k := Z.to_nat (size - startSample)).
  replace n with (Z.of_nat k + (n - Z.of_nat k))%Z by lia.
  rewrite renderLoop_split by (unfold k; lia).
  destruct (renderLoop_block k v buf startSample size Hwf Hpos)
    as (buf' & Hrun & Hwf' & Hlen & _); [unfold k; lia|].
  rewrite Hrun.
  apply (renderLoop_outside _ buf' size); auto.
  - intros ->. destruct buf; [contradiction|discriminate].
  - unfold k. lia.
  - unfold k. lia.
Qed.

Lemma renderNextBlock_outside_buffer_witness :
  renderNextBlock soundingVoice [[0; 0]] 1 2 = None.
Proof.
  apply (renderNextBlock_outside_buffer soundingVoice [[0; 0]] 2 1 2).
  - exact buffer_wf_demo.
  - discriminate.
  - exact approximatelyEqual_1_0.
  - lia.
  - right. lia.
Defined.

(** ** What a render call can change *)

Lemma list_alter_shape (g : list R -> list R) c (buf : AudioBuffer) :
  (forall ch, length (g ch) = length ch) ->
  map (@length R) (list_alter g c buf) = map (@length R) buf.
Proof.
  intros Hg. revert c. induction buf as [|ch buf IH]; intros [|c]; simpl;
    try reflexivity.
  - now rewrite Hg.
  - now rewrite IH.
Qed.

Lemma addSample_shape buf c s x buf' :
  addSample buf c s x = Some buf' ->
  map (@length R) buf' = map (@length R) buf.
Proof.
  unfold addSample. destruct (_ && _)%bool; [|discriminate].
  destruct (nth_error buf (Z.to_nat c)) as [ch|]; simpl; [|discriminate].
  destruct (_ && _)%bool; [|discriminate].
  intros H. injection H as <-. apply list_alter_shape.
  intros ch0. apply list_alter_length.
Qed.

Lemma addToChannels_shape (k : nat) :
  forall buf outputLen channel s x buf',
    (outputLen - channel <= Z.of_nat k)%Z ->
    addToChannels buf outputLen channel s x = Some buf' ->
    map (@length R) buf' = map (@length R) buf.
Proof.
  induction k as [|k IH]; intros buf outputLen channel s x buf' Hk;
    rewrite addToChannels_step;
    destruct (Z.ltb_spec channel outputLen) as [Hlt|Hge]; try lia;
    try (intros H; now injection H as <-).
  destruct (addSample buf channel s x) as [buf1|] eqn:E; [|discriminate].
  intros H. apply IH in H; [|lia].
  rewrite H. now apply addSample_shape in E.
Qed.

Lemma renderSample_shape v buf s v1 buf1 s1 :
  renderSample v buf s = Some (v1, buf1, s1) ->
  map (@length R) buf1 = map (@length R) buf.
Proof.
  unfold renderSample.
  destruct (addToChannels _ _ _ _ _) as [b|] eqn:E; simpl; [|discriminate].
  destruct (int_result (s + 1)); simpl; [|discriminate].
  intros H. injection H as _ <- _.
  apply (addToChannels_shape (Z.to_nat (getNumChannels buf))) in E; [exact E|lia].
Qed.

Lemma renderLoop_result (k : nat) :
  forall v buf s n v' buf',
    (n <= Z.of_nat k)%Z ->
    renderLoop v buf s n = Some (v', buf') ->
    v' = set_phaseIndex (phaseIndex v + IZR (Z.max n 0) * phaseIncrement v) v /\
    map (@length R) buf' = map (@length R) buf.
Proof.
  induction k as [|k IH]; intros v buf s n v' buf' Hn; rewrite renderLoop_step;
    destruct (in_int (n - 1)); try discriminate;
    destruct (Z.leb_spec 0 (n - 1)) as [Hge|Hlt]; try lia.
  - intros H. injection H as <- <-. split; [|reflexivity].
    rewrite Z.max_r by lia. rewrite <- (set_phaseIndex_same v) at 1.
    f_equal. ring.
  - destruct (renderSample v buf s) as [[[v1 buf1] s1]|] eqn:E; [|discriminate].
    intros H. apply IH in H; [|lia]. destruct H as [Hv Hshape].
    pose proof (renderSample_frame _ _ _ _ _ _ E) as Hv1.
    apply renderSample_shape in E. split; [|congruence].
    rewrite Hv, Hv1, set_phaseIndex_twice. f_equal.
    change (phaseIndex (set_phaseIndex ?x v)) with x.
    change (phaseIncrement (set_phaseIndex ?x v)) with (phaseIncrement v).
    rewrite !Z.max_l by lia. rewrite minus_IZR. ring.
  - intros H. injection H as <- <-. split; [|reflexivity].
    rewrite Z.max_r by lia. rewrite <- (set_phaseIndex_same v) at 1.
    f_equal. ring.
Qed.

Lemma renderNextBlock_result v buf s n v' buf' :
  renderNextBlock v buf s n = Some (v', buf') ->
  v' = set_phaseIndex
         (phaseIndex v
          + IZR (if approximatelyEqual (phaseIncrement v) 0 then 0
                 else Z.max n 0) * phaseIncrement v) v /\
  map (@length R) buf' = map (@length R) buf.
Proof.
  unfold renderNextBlock.
  destruct (approximatelyEqual (phaseIncrement v) 0); simpl.
  - intros H. injection H as <- <-. split; [|reflexivity].
    rewrite <- (set_phaseIndex_same v) at 1. f_equal. ring.
  - apply (renderLoop_result (Z.to_nat n)). lia.
Qed.

(** X3: whenever a render call returns, on any buffer and with any
    arguments, the voice differs from the one it started with in its phase
    only, the phase has advanced by exactly max(numSamples, 0) increments
    when the voice sounds and not at all when it is silent, and every
    channel of the buffer has kept its length. *)
Theorem renderNextBlock_changes_phase_only (v v' : MorphingWaveformVoice)
    (buf buf' : AudioBuffer) (startSample numSamples : Z) :
  renderNextBlock v buf startSample numSamples = Some (v', buf') ->
  v' = set_phaseIndex
         (phaseIndex v
          + IZR (if approximatelyEqual (phaseIncrement v) 0 then 0
                 else Z.max numSamples 0) * phaseIncrement v) v /\
  map (@length R) buf' = map (@length R) buf.
Proof. apply renderNextBlock_result. Qed.

Lemma renderNextBlock_changes_phase_only_witness :
  exists v' buf',
    renderNextBlock soundingVoice [[0; 0]] 0 2 = Some (v', buf') /\
    v' = set_phaseIndex
           (phaseIndex soundingVoice
            + IZR (if approximatelyEqual (phaseIncrement soundingVoice) 0 then 0
                   else Z.max 2 0) * phaseIncrement soundingVoice)
           soundingVoice /\
    map (@length R) buf' = map (@length R) [[0; 0]].
Proof.
  destruct (renderNextBlock_sounding soundingVoice [[0; 0]] 2 0 2
              buffer_wf_demo approximatelyEqual_1_0)
    as (buf' & Hrun & _); try lia.
  eexists. exists buf'. split; [exact Hrun|].
  exact (renderNextBlock_changes_phase_only _ _ _ _ _ _ Hrun).
Defined.

(** ** The shape of the four waveforms *)

Lemma sin_turn x : sin (x + 2 * PI) = sin x.
Proof.
  replace (x + 2 * PI) with (x + 2 * IZR 1 * PI) by ring. apply sin_period_Z.
Qed.

Lemma asin_pos y : 0 < y <= 1 -> 0 < asin y.
Proof.
  intros [H0 H1]. destruct (asin_bound y) as [Hl Hu].
  destruct (Rlt_le_dec 0 (asin y)) as [Hp|Hn]; [assumption|exfalso].
  assert (Hs : sin (asin y) = y) by (apply sin_asin; lra).
  destruct (Req_dec (asin y) 0) as [E|E].
  - rewrite E, sin_0 in Hs. lra.
  - pose proof PI_pos.
    assert (sin (asin y) < 0) by (apply sin_lt_0_var; lra). lra.
Qed.

Lemma asin_zero_iff y : -1 <= y <= 1 -> (asin y = 0 <-> y = 0).
Proof.
  intros Hy. split.
  - intros E. rewrite <- (sin_asin y Hy), E. apply sin_0.
  - intros ->. apply asin_0.
Qed.

(** X4: the triangle generator is piecewise linear and in phase with the
    sine: it equals 2x/pi between -pi/2 and pi/2 and 2(pi - x)/pi between
    pi/2 and 3pi/2, it is odd, it changes sign after half a period, and
    it is zero, positive or negative exactly where the sine is. *)
Theorem triangleValue_piecewise (x : R) :
  (- (PI / 2) <= x <= PI / 2 -> triangleValue x = 2 * x / PI) /\
  (PI / 2 <= x <= 3 * PI / 2 -> triangleValue x = 2 * (PI - x) / PI) /\
  triangleValue (- x) = - triangleValue x /\
  triangleValue (x + PI) = - triangleValue x /\
  (triangleValue x = 0 <-> sin x = 0) /\
  (0 < triangleValue x <-> 0 < sin x) /\
  (triangleValue x < 0 <-> sin x < 0).
Proof.
  pose proof PI_pos as Hpi.
  assert (H2 : 0 < 2 / PI) by (apply Rdiv_lt_0_compat; lra).
  unfold triangleValue, MathConstants.pi.
  split; [|split; [|split; [|split]]].
  - intros H. rewrite asin_sin by lra. field. lra.
  - intros H. rewrite <- (sin_PI_x x), asin_sin by lra. field. lra.
  - rewrite sin_neg, asin_opp. ring.
  - rewrite neg_sin, asin_opp. ring.
  - pose proof (SIN_bound x) as Hb.
    assert (Hpos : 0 < sin x -> 0 < asin (sin x)) by (intros; apply asin_pos; lra).
    assert (Hneg : sin x < 0 -> asin (sin x) < 0).
    { intros Hs. assert (0 < asin (- sin x)) by (apply asin_pos; lra).
      rewrite asin_opp in H. lra. }
    assert (Hz : sin x = 0 -> asin (sin x) = 0) by (intros ->; apply asin_0).
    destruct (Rtotal_order (sin x) 0) as [Hs|[Hs|Hs]].
    + specialize (Hneg Hs). repeat split; intros; try lra; nra.
    + specialize (Hz Hs). rewrite Hz, Rmult_0_r. repeat split; intros; lra.
    + specialize (Hpos Hs). repeat split; intros; try lra; nra.
Qed.

Lemma triangleValue_piecewise_witness :
  triangleValue 1 = 2 * 1 / PI /\ triangleValue 2 = 2 * (PI - 2) / PI.
Proof.
  pose proof PI2_1 as H1. pose proof PI_4 as H4.
  split.
  - apply (triangleValue_piecewise 1). lra.
  - apply (triangleValue_piecewise 2). lra.
Defined.

(** X5: the square generator has a duty cycle of one half: it is +1 from 0
    to pi, both ends included, and -1 strictly between pi and 2pi; it
    repeats after 2pi at every angle, and half a period later it has the
    opposite value wherever the sine is not zero. *)
Theorem squareValue_duty_cycle (x : R) :
  (0 <= x <= PI -> squareValue x = 1) /\
  (PI < x < 2 * PI -> squareValue x = -1) /\
  squareValue (x + 2 * PI) = squareValue x /\
  (sin x <> 0 -> squareValue (x + PI) = - squareValue x).
Proof.
  unfold squareValue, Rltb, double_of_bool.
  split; [|split; [|split]].
  - intros [H0 H1]. pose proof (sin_ge_0 x H0 H1).
    destruct (Rlt_dec (sin x) 0); [lra|ring].
  - intros [H0 H1]. pose proof (sin_lt_0 x H0 H1).
    destruct (Rlt_dec (sin x) 0); [ring|lra].
  - now rewrite sin_turn.
  - intros Hs. rewrite neg_sin.
    destruct (Rlt_dec (- sin x) 0), (Rlt_dec (sin x) 0); try ring; lra.
Qed.

Lemma squareValue_duty_cycle_witness :
  squareValue 1 = 1 /\ squareValue 5 = -1.
Proof.
  pose proof PI2_3_2 as H1. pose proof PI_4 as H4.
  split.
  - apply (squareValue_duty_cycle 1). lra.
  - apply (squareValue_duty_cycle 5). lra.
Defined.

Lemma quotient_bounds a b x :
  a * (2 * PI) <= x < b * (2 * PI) -> a <= x / (2 * PI) < b.
Proof.
  pose proof PI_pos as Hpi. intros [Hl Hu].
  assert (Hi : 0 < / (2 * PI)) by (apply Rinv_0_lt_compat; lra).
  split.
  - replace a with (a * (2 * PI) / (2 * PI)) by (field; lra).
    unfold Rdiv. apply Rmult_le_compat_r; lra.
  - replace b with (b * (2 * PI) / (2 * PI)) by (field; lra).
    unfold Rdiv. apply Rmult_lt_compat_r; lra.
Qed.

Lemma quotient_bounds_neg a b x :
  a * (2 * PI) < x <= b * (2 * PI) -> a < x / (2 * PI) <= b.
Proof.
  pose proof PI_pos as Hpi. intros [Hl Hu].
  assert (Hi : 0 < / (2 * PI)) by (apply Rinv_0_lt_compat; lra).
  split.
  - replace a with (a * (2 * PI) / (2 * PI)) by (field; lra).
    unfold Rdiv. apply Rmult_lt_compat_r; lra.
  - replace b with (b * (2 * PI) / (2 * PI)) by (field; lra).
    unfold Rdiv. apply Rmult_le_compat_r; lra.
Qed.

(** In the turn that starts at [k] whole turns, [k >= 0]. *)
Lemma sawValue_in_turn_nonneg (k : Z) x :
  (0 <= k)%Z -> IZR k * (2 * PI) <= x < (IZR k + 1) * (2 * PI) ->
  sawValue x = 2 / PI * (x - IZR k * (2 * PI) - PI).
Proof.
  intros Hk Hx. pose proof PI_pos as Hpi.
  assert (0 <= IZR k) by (apply IZR_le; lia).
  unfold sawValue, MathConstants.pi, MathConstants.twoPi, std_fmod.
  rewrite (Ztrunc_between_pos (x / (2 * PI)) k); [reflexivity| |].
  - apply (proj1 (quotient_sign x)). nra.
  - apply quotient_bounds. exact Hx.
Qed.

(** In the turn that ends at [k] whole turns, [k <= 0]. *)
Lemma sawValue_in_turn_neg (k : Z) x :
  (k <= 0)%Z -> (IZR k - 1) * (2 * PI) < x <= IZR k * (2 * PI) -> x < 0 ->
  sawValue x = 2 / PI * (x - IZR k * (2 * PI) - PI).
Proof.
  intros Hk Hx Hneg. pose proof PI_pos as Hpi.
  unfold sawValue, MathConstants.pi, MathConstants.twoPi, std_fmod.
  rewrite (Ztrunc_between_neg (x / (2 * PI)) k); [reflexivity| |].
  - destruct (quotient_bounds (x / (2 * PI)) 0 x) as [_ Hq]; [|exact Hq].
    rewrite Rmult_0_l. split; [|lra].
    replace (x / (2 * PI) * (2 * PI)) with x by (field; lra). lra.
  - apply quotient_bounds_neg. exact Hx.
Qed.

Lemma turn_of_nonneg x :
  0 <= x -> exists k : Z, (0 <= k)%Z /\
    IZR k * (2 * PI) <= x < (IZR k + 1) * (2 * PI).
Proof.
  intros Hx. pose proof PI_pos as Hpi.
  exists (Zfloor (x / (2 * PI))).
  destruct (Zfloor_bound (x / (2 * PI))) as [Hl Hu].
  assert (E : x / (2 * PI) * (2 * PI) = x) by (field; lra).
  split.
  - apply Zfloor_lub. exact (proj1 (quotient_sign x) Hx).
  - split.
    + apply (Rmult_le_compat_r (2 * PI)) in Hl; lra.
    + apply (Rmult_lt_compat_r (2 * PI)) in Hu; lra.
Qed.

Lemma turn_of_neg x :
  x < 0 -> exists k : Z, (k <= 0)%Z /\
    (IZR k - 1) * (2 * PI) < x <= IZR k * (2 * PI).
Proof.
  intros Hx. pose proof PI_pos as Hpi.
  exists (Zceil (x / (2 * PI))).
  destruct (Zceil_bound (x / (2 * PI))) as [Hl Hu].
  assert (E : x / (2 * PI) * (2 * PI) = x) by (field; lra).
  assert (Hq : x / (2 * PI) < 0).
  { destruct (quotient_bounds (x / (2 * PI)) 0 x) as [_ Hq]; [|exact Hq].
    rewrite Rmult_0_l. lra. }
  split.
  - unfold Zceil. assert (0 <= Zfloor (- (x / (2 * PI))))%Z; [|lia].
    apply Zfloor_lub. simpl. lra.
  - split.
    + apply (Rmult_lt_compat_r (2 * PI)) in Hl; lra.
    + apply (Rmult_le_compat_r (2 * PI)) in Hu; lra.
Qed.

(** X6: the range of the sawtooth generator.  From 0 up to 6, inside the
    first turn and clear of its end, it is the ramp 2(x - pi)/pi that
    starts at -2; at every angle that is at least 0 its value lies in
    [-2, 2); at every negative angle its value lies in (-6, -2]. *)
Theorem sawValue_ramp_range (x : R) :
  (0 <= x <= 6 -> sawValue x = 2 * (x - PI) / PI) /\
  (0 <= x -> -2 <= sawValue x < 2) /\
  (x < 0 -> -6 < sawValue x <= -2).
Proof.
  pose proof PI_pos as Hpi. pose proof PI2_3_2 as Hpi3.
  assert (H2 : 0 < 2 / PI) by (apply Rdiv_lt_0_compat; lra).
  assert (Hscale : forall t, 2 / PI * (t - PI) = 2 * t / PI - 2)
    by (intros; field; lra).
  split; [|split].
  - intros Hx. rewrite (sawValue_in_turn_nonneg 0 x); [field; lra|lia|].
    simpl. lra.
  - intros Hx. destruct (turn_of_nonneg x Hx) as (k & Hk & Hl & Hu).
    rewrite (sawValue_in_turn_nonneg k x Hk (conj Hl Hu)).
    rewrite Hscale.
    assert (0 <= 2 * (x - IZR k * (2 * PI)) / PI < 4).
    { split.
      - apply Rmult_le_pos; [lra|]. apply Rlt_le, Rinv_0_lt_compat. lra.
      - apply Rmult_lt_reg_r with PI; [lra|].
        unfold Rdiv. rewrite Rmult_assoc, Rinv_l by lra. lra. }
    lra.
  - intros Hx. destruct (turn_of_neg x Hx) as (k & Hk & Hl & Hu).
    rewrite (sawValue_in_turn_neg k x Hk (conj Hl Hu) Hx).
    rewrite Hscale.
    assert (-4 < 2 * (x - IZR k * (2 * PI)) / PI <= 0).
    { split.
      - apply Rmult_lt_reg_r with PI; [lra|].
        unfold Rdiv. rewrite Rmult_assoc, Rinv_l by lra. lra.
      - apply Rmult_le_reg_r with PI; [lra|].
        unfold Rdiv. rewrite Rmult_assoc, Rinv_l by lra. lra. }
    lra.
Qed.

Lemma sawValue_ramp_range_witness :
  sawValue 1 = 2 * (1 - PI) / PI /\ -2 <= sawValue 7 < 2 /\
  -6 < sawValue (-1) <= -2.
Proof.
  pose proof PI2_1 as H1.
  split; [|split].
  - apply (sawValue_ramp_range 1). lra.
  - apply (sawValue_ramp_range 7). lra.
  - apply (sawValue_ramp_range (-1)). lra.
Defined.

(** ** The angles a voice uses *)

Lemma getMidiNoteInHertz_pos n : 0 < getMidiNoteInHertz n.
Proof.
  unfold getMidiNoteInHertz, Rpower. pose proof (exp_pos ((IZR n - 69) / 12 * ln 2)).
  lra.
Qed.

(** X9: no waveform is ever asked for a negative angle.  A new voice has
    phase 0 and increment 0; starting a note at a positive sample rate
    gives phase 0 and a positive increment; stopping, morphing and
    rendering keep phase and increment non-negative, and rendering never
    moves the phase backwards; so every angle phase + i*phaseIncrement
    with i >= 0 is at least 0. *)
Theorem phase_stays_forward (v : MorphingWaveformVoice) :
  (forall sampleRate, phase_forward (newVoice sampleRate)) /\
  (0 < currentSampleRate v ->
   forall n velocity wheel,
     phaseIndex (startNote n velocity wheel v) = 0 /\
     0 < phaseIncrement (startNote n velocity wheel v)) /\
  (phase_forward v ->
   (forall velocity allowTailOff,
      phase_forward (stopNote velocity allowTailOff v)) /\
   (forall p v', updateMorphFunctions p v = Some v' -> phase_forward v') /\
   (forall buf startSample numSamples v' buf',
      renderNextBlock v buf startSample numSamples = Some (v', buf') ->
      phase_forward v' /\ phaseIndex v <= phaseIndex v') /\
   (forall i, (0 <= i)%Z -> 0 <= phaseIndex v + IZR i * phaseIncrement v)).
Proof.
  split; [|split].
  - intros sr. unfold phase_forward. simpl. lra.
  - intros Hsr n velocity wheel. split; [reflexivity|].
    unfold startNote, getSampleRate, MathConstants.twoPi. simpl.
    pose proof (getMidiNoteInHertz_pos n) as Hf. pose proof PI_pos as Hpi.
    apply Rmult_lt_0_compat; [|lra].
    apply Rdiv_lt_0_compat; assumption.
  - intros [Hp Hi]. split; [|split; [|split]].
    + intros velocity allowTailOff. unfold phase_forward. simpl. lra.
    + intros p v' H. apply updateMorphFunctions_result in H. subst v'.
      unfold phase_forward. simpl. lra.
    + intros buf s n v' buf' H. apply renderNextBlock_result in H.
      destruct H as [Hv _].
      assert (Hk : 0 <= IZR (if approximatelyEqual (phaseIncrement v) 0
                              then 0 else Z.max n 0)).
      { apply IZR_le. destruct (approximatelyEqual (phaseIncrement v) 0); lia. }
      rewrite Hv. unfold phase_forward. simpl.
      pose proof (Rmult_le_pos _ _ Hk Hi). lra.
    + intros i H0. assert (0 <= IZR i) by (apply IZR_le; lia).
      pose proof (Rmult_le_pos _ _ H Hi). lra.
Qed.

Lemma phase_stays_forward_witness :
  phaseIndex (startNote 69 1 0 soundingVoice) = 0 /\
  0 < phaseIncrement (startNote 69 1 0 soundingVoice).
Proof.
  apply (phase_stays_forward soundingVoice). simpl. lra.
Defined.

(** ** Morph positions *)

Lemma getWaveSample_unit (k : Z) x :
  (0 <= k <= 2)%Z -> -1 <= getWaveSample k x <= 1.
Proof.
  intros Hk. unfold getWaveSample.
  destruct (Z.eqb_spec k 0); [apply SIN_bound|].
  destruct (Z.eqb_spec k 1).
  { destruct (squareValue_cases x) as [-> | ->]; lra. }
  destruct (Z.eqb_spec k 2); [apply triangleValue_range|lia].
Qed.

Lemma blend_unit a b f : -1 <= a <= 1 -> -1 <= b <= 1 -> 0 <= f <= 1 ->
  -1 <= a * (1 - f) + b * f <= 1.
Proof. intros; nra. Qed.

(** X10: the slider keeps the voice inside the three smooth waveforms.
    For every value in the slider's range [0, 2] the morph update
    succeeds, the low index is 0, 1 or 2, the high index is the low index
    plus one, the fraction lies in [0, 1), the sawtooth (index 3) has
    weight 0 whenever it is selected, and every sample the voice adds has
    a magnitude of at most the level. *)
Theorem slider_range_is_safe (value : R) (v : MorphingWaveformVoice) :
  waveformBlend_minimum <= value <= waveformBlend_maximum ->
  exists v',
    waveformBlend_onValueChange value v = Some v' /\
    (0 <= wave_a v' <= 2)%Z /\
    wave_b v' = (wave_a v' + 1)%Z /\
    0 <= wavePosition v' < 1 /\
    (wave_b v' = 3%Z -> wavePosition v' = 0) /\
    forall i, Rabs (sampleAt v' i) <= Rabs (level v).
Proof.
  unfold waveformBlend_minimum, waveformBlend_maximum,
    waveformBlend_onValueChange.
  intros [Hlo Hhi].
  destruct (Zfloor_bound value) as [Hfl Hfu].
  assert (Ha : (0 <= Zfloor value <= 2)%Z).
  { split; [apply Zfloor_lub; simpl; lra|].
    assert (Zfloor value < 3)%Z; [|lia]. apply lt_IZR. lra. }
  assert (Hb : std_clamp (Zfloor value + 1) 0 3 = (Zfloor value + 1)%Z).
  { unfold std_clamp.
    destruct (Z.ltb_spec (Zfloor value + 1) 0); [lia|].
    destruct (Z.ltb_spec 3 (Zfloor value + 1)); [lia|reflexivity]. }
  assert (Hsat : (Zfloor value + 1 = 3)%Z -> value - IZR (Zfloor value) = 0).
  { intros E. assert (E2 : Zfloor value = 2%Z) by lia. rewrite E2 in *. lra. }
  eexists. split.
  { apply updateMorphFunctions_in_range. unfold INT_MIN, INT_MAX. lia. }
  simpl. rewrite Hb.
  split; [exact Ha|]. split; [reflexivity|]. split; [lra|]. split; [exact Hsat|].
  intros i. unfold sampleAt. simpl. rewrite ?Hb, Rabs_mult.
  rewrite <- (Rmult_1_l (Rabs (level v))) at 2.
  apply Rmult_le_compat_r; [apply Rabs_pos|]. apply Rabs_le.
  set (x := phaseIndex v + IZR i * phaseIncrement v).
  pose proof (getWaveSample_unit (Zfloor value) x Ha) as Hwa.
  destruct (Z.eq_dec (Zfloor value) 2) as [E|E].
  - rewrite Hsat by lia. lra.
  - apply blend_unit; [exact Hwa| |lra].
    apply getWaveSample_unit. lia.
Qed.

Lemma slider_range_is_safe_witness :
  exists v',
    waveformBlend_onValueChange (3 / 2) soundingVoice = Some v' /\
    (0 <= wave_a v' <= 2)%Z /\
    wave_b v' = (wave_a v' + 1)%Z /\
    0 <= wavePosition v' < 1 /\
    (wave_b v' = 3%Z -> wavePosition v' = 0) /\
    forall i, Rabs (sampleAt v' i) <= Rabs (level soundingVoice).
Proof.
  apply (slider_range_is_safe (3 / 2) soundingVoice).
  unfold waveformBlend_minimum, waveformBlend_maximum. lra.
Defined.

Lemma getWaveSample_high (k : Z) x :
  (3 <= k)%Z -> getWaveSample k x = sawValue x.
Proof.
  intros H. unfold getWaveSample.
  destruct (Z.eqb_spec k 0); [lia|].
  destruct (Z.eqb_spec k 1); [lia|].
  destruct (Z.eqb_spec k 2); [lia|reflexivity].
Qed.

Lemma getWaveSample_low (k : Z) x :
  (k < 0)%Z -> getWaveSample k x = sawValue x.
Proof.
  intros H. unfold getWaveSample.
  destruct (Z.eqb_spec k 0); [lia|].
  destruct (Z.eqb_spec k 1); [lia|].
  destruct (Z.eqb_spec k 2); [lia|reflexivity].
Qed.

(** X11: at a whole morph position the output is one pure waveform.  For
    every integer k that fits an [int] together with k + 1, the update to
    position k gives fraction 0, and every sample the voice then adds is
    waveform k at the current angle times the level, whatever the high
    index is. *)
Theorem whole_position_is_pure (k i : Z) (v : MorphingWaveformVoice) :
  (INT_MIN <= k < INT_MAX)%Z ->
  exists v',
    updateMorphFunctions (IZR k) v = Some v' /\
    wave_a v' = k /\ wavePosition v' = 0 /\
    sampleAt v' i =
      getWaveSample k (phaseIndex v + IZR i * phaseIncrement v) * level v.
Proof.
  intros Hk. eexists. split.
  { apply updateMorphFunctions_in_range. now rewrite ZfloorZ. }
  rewrite ZfloorZ. simpl. split; [reflexivity|]. split; [ring|].
  unfold sampleAt. simpl. ring.
Qed.

Lemma whole_position_is_pure_witness :
  exists v',
    updateMorphFunctions (IZR 2) soundingVoice = Some v' /\
    wave_a v' = 2%Z /\ wavePosition v' = 0 /\
    sampleAt v' 5 =
      getWaveSample 2
        (phaseIndex soundingVoice + IZR 5 * phaseIncrement soundingVoice)
      * level soundingVoice.
Proof.
  apply (whole_position_is_pure 2 5 soundingVoice).
  unfold INT_MIN, INT_MAX. lia.
Defined.

(** X12: above the last waveform the morph saturates.  For every position
    p >= 3 whose floor plus one fits an [int], both indices select the
    sawtooth, and every sample the voice adds is the sawtooth value at the
    current angle times the level, whatever the fraction is. *)
Theorem position_above_three_is_sawtooth (p : R) (i : Z)
    (v : MorphingWaveformVoice) :
  3 <= p -> (Zfloor p < INT_MAX)%Z ->
  exists v',
    updateMorphFunctions p v = Some v' /\
    wave_b v' = 3%Z /\
    sampleAt v' i =
      sawValue (phaseIndex v + IZR i * phaseIncrement v) * level v.
Proof.
  intros Hp Hmax.
  assert (Ha : (3 <= Zfloor p)%Z) by (apply Zfloor_lub; simpl; lra).
  assert (Hb : std_clamp (Zfloor p + 1) 0 3 = 3%Z).
  { unfold std_clamp.
    destruct (Z.ltb_spec (Zfloor p + 1) 0); [lia|].
    destruct (Z.ltb_spec 3 (Zfloor p + 1)); lia. }
  eexists. split.
  { apply updateMorphFunctions_in_range. unfold INT_MIN in *. lia. }
  simpl. split; [exact Hb|].
  unfold sampleAt. simpl. rewrite Hb.
  rewrite (getWaveSample_high (Zfloor p)) by exact Ha.
  change (getWaveSample 3) with sawValue. ring.
Qed.

Lemma position_above_three_is_sawtooth_witness :
  exists v',
    updateMorphFunctions (7 / 2) soundingVoice = Some v' /\
    wave_b v' = 3%Z /\
    sampleAt v' 5 =
      sawValue (phaseIndex soundingVoice + IZR 5 * phaseIncrement soundingVoice)
      * level soundingVoice.
Proof.
  apply (position_above_three_is_sawtooth (7 / 2) 5 soundingVoice).
  - lra.
  - rewrite (Zfloor_small (7 / 2) 3) by lra. unfold INT_MAX. lia.
Defined.

(** X13: below the first waveform the morph wraps round.  For every
    negative position p whose floor fits an [int], the low index selects
    the sawtooth and the high index is 0, the sine, so every sample the
    voice adds is a blend from the sawtooth towards the sine with weight
    p - floor(p) on the sine. *)
Theorem negative_position_wraps (p : R) (i : Z) (v : MorphingWaveformVoice) :
  p < 0 -> (INT_MIN <= Zfloor p)%Z ->
  exists v',
    updateMorphFunctions p v = Some v' /\
    (wave_a v' < 0)%Z /\ wave_b v' = 0%Z /\
    sampleAt v' i =
      (sawValue (phaseIndex v + IZR i * phaseIncrement v)
         * (1 - (p - IZR (Zfloor p)))
       + sin (phaseIndex v + IZR i * phaseIncrement v)
         * (p - IZR (Zfloor p))) * level v.
Proof.
  intros Hp Hmin.
  assert (Ha : (Zfloor p < 0)%Z).
  { apply lt_IZR. destruct (Zfloor_bound p). simpl. lra. }
  assert (Hb : std_clamp (Zfloor p + 1) 0 3 = 0%Z).
  { unfold std_clamp.
    destruct (Z.ltb_spec (Zfloor p + 1) 0); [reflexivity|].
    destruct (Z.ltb_spec 3 (Zfloor p + 1)); lia. }
  eexists. split.
  { apply updateMorphFunctions_in_range. unfold INT_MAX in *. lia. }
  simpl. split; [exact Ha|]. split; [exact Hb|].
  unfold sampleAt. simpl. rewrite Hb.
  rewrite (getWaveSample_low (Zfloor p)) by exact Ha. reflexivity.
Qed.

Lemma negative_position_wraps_witness :
  exists v',
    updateMorphFunctions (- (1 / 2)) soundingVoice = Some v' /\
    (wave_a v' < 0)%Z /\ wave_b v' = 0%Z /\
    sampleAt v' 5 =
      (sawValue (phaseIndex soundingVoice + IZR 5 * phaseIncrement soundingVoice)
         * (1 - (- (1 / 2) - IZR (Zfloor (- (1 / 2)))))
       + sin (phaseIndex soundingVoice + IZR 5 * phaseIncrement soundingVoice)
         * (- (1 / 2) - IZR (Zfloor (- (1 / 2))))) * level soundingVoice.
Proof.
  apply (negative_position_wraps (- (1 / 2)) 5 soundingVoice).
  - lra.
  - rewrite (Zfloor_small (- (1 / 2)) (-1)) by lra. unfold INT_MIN. lia.
Defined.

(** ** Sweeping the morph position *)

Lemma lipschitz_near_continuity (f : R -> R) p0 :
  (exists d M, 0 < d /\
     forall p, Rabs (p - p0) < d -> Rabs (f p - f p0) <= M * Rabs (p - p0)) ->
  continuity_pt f p0.
Proof.
  intros (d & M & Hd & Hlip) eps Heps.
  pose proof (Rabs_pos M) as HM.
  exists (Rmin d (eps / (Rabs M + 1))). split.
  - apply Rmin_pos; [assumption|]. apply Rdiv_lt_0_compat; lra.
  - intros p [_ Hp]. simpl in *. unfold Rdist in *.
    assert (Hp1 : Rabs (p - p0) < d)
      by (eapply Rlt_le_trans; [exact Hp|apply Rmin_l]).
    assert (Hp2 : Rabs (p - p0) < eps / (Rabs M + 1))
      by (eapply Rlt_le_trans; [exact Hp|apply Rmin_r]).
    apply (Rmult_lt_compat_r (Rabs M + 1)) in Hp2; [|lra].
    unfold Rdiv in Hp2. rewrite Rmult_assoc, Rinv_l, Rmult_1_r in Hp2 by lra.
    specialize (Hlip p Hp1).
    pose proof (Rabs_pos (p - p0)) as Hpos.
    pose proof (Rle_abs M) as HleM.
    assert (M * Rabs (p - p0) <= Rabs M * Rabs (p - p0))
      by (apply Rmult_le_compat_r; assumption).
    lra.
Qed.

Lemma morphedSample_in_range v i p :
  (INT_MIN <= Zfloor p < INT_MAX)%Z ->
  morphedSample v i p =
  (getWaveSample (Zfloor p) (phaseIndex v + IZR i * phaseIncrement v)
     * (1 - (p - IZR (Zfloor p)))
   + getWaveSample (std_clamp (Zfloor p + 1) 0 3)
       (phaseIndex v + IZR i * phaseIncrement v)
     * (p - IZR (Zfloor p))) * level v.
Proof.
  intros H. unfold morphedSample.
  rewrite (updateMorphFunctions_in_range p v H). reflexivity.
Qed.

Lemma getWaveSample_clamp (k : Z) x :
  (0 <= k)%Z -> getWaveSample (std_clamp k 0 3) x = getWaveSample k x.
Proof.
  intros Hk. unfold std_clamp.
  destruct (Z.ltb_spec k 0); [lia|].
  destruct (Z.ltb_spec 3 k); [|reflexivity].
  now rewrite (getWaveSample_high k) by lia.
Qed.

(** X14: moving the morph control produces no jump.  At every position
    above -1 whose floor plus one fits an [int], the sample the voice adds
    is a continuous function of the morph position, also where the
    position crosses a whole number and the pair of waveforms changes. *)
Theorem morphedSample_continuous (v : MorphingWaveformVoice) (i : Z) (p0 : R) :
  -1 < p0 < IZR INT_MAX ->
  continuity_pt (morphedSample v i) p0.
Proof.
  intros [Hlo Hhi]. apply lipschitz_near_continuity.
  destruct (Zfloor_bound p0) as [Hfl Hfu].
  set (a0 := Zfloor p0) in *.
  assert (Ha0 : (-1 <= a0 < INT_MAX)%Z).
  { split; [apply Zfloor_lub; simpl; lra|]. apply lt_IZR. lra. }
  set (x := phaseIndex v + IZR i * phaseIncrement v).
  set (A := getWaveSample a0 x).
  set (B := getWaveSample (std_clamp (a0 + 1) 0 3) x).
  set (A' := getWaveSample (a0 - 1) x).
  assert (Hat : forall p, IZR a0 <= p < IZR a0 + 1 ->
            morphedSample v i p =
            (A * (1 - (p - IZR a0)) + B * (p - IZR a0)) * level v).
  { intros p Hp. rewrite morphedSample_in_range;
      rewrite (Zfloor_small p a0 Hp); [reflexivity|].
    unfold INT_MIN in *. lia. }
  destruct (Req_dec p0 (IZR a0)) as [Hint|Hfrac].
  - (* a whole position: the pair of waveforms changes here *)
    assert (Ha : (0 <= a0)%Z).
    { assert (-1 < a0)%Z; [|lia]. apply lt_IZR. lra. }
    assert (Hbelow : forall p, IZR a0 - 1 <= p < IZR a0 ->
              morphedSample v i p =
              (A' * (IZR a0 - p) + A * (1 - (IZR a0 - p))) * level v).
    { intros p Hp. rewrite morphedSample_in_range;
        rewrite (Zfloor_small p (a0 - 1)); rewrite ?minus_IZR; try lra.
      - replace (a0 - 1 + 1)%Z with a0 by lia.
        rewrite getWaveSample_clamp by exact Ha. fold x A A'. ring.
      - unfold INT_MIN in *. lia. }
    exists 1, (Rabs ((B - A) * level v) + Rabs ((A' - A) * level v)).
    split; [lra|]. intros p Hp. apply Rabs_def2 in Hp.
    pose proof (Rabs_pos ((B - A) * level v)) as H1.
    pose proof (Rabs_pos ((A' - A) * level v)) as H2.
    pose proof (Rabs_pos (p - p0)) as H3.
    rewrite (Hat p0) by lra.
    destruct (Rle_dec p0 p) as [Habove|Hbel].
    + rewrite (Hat p) by lra.
      replace ((A * (1 - (p - IZR a0)) + B * (p - IZR a0)) * level v
               - (A * (1 - (p0 - IZR a0)) + B * (p0 - IZR a0)) * level v)
        with ((B - A) * level v * (p - p0)) by ring.
      rewrite Rabs_mult. nra.
    + rewrite (Hbelow p) by lra.
      replace ((A' * (IZR a0 - p) + A * (1 - (IZR a0 - p))) * level v
               - (A * (1 - (p0 - IZR a0)) + B * (p0 - IZR a0)) * level v)
        with ((A' - A) * level v * (- (p - p0))) by (rewrite Hint; ring).
      rewrite Rabs_mult, Rabs_Ropp. nra.
  - (* strictly between two whole positions: the pair is fixed *)
    exists (Rmin (p0 - IZR a0) (IZR a0 + 1 - p0)), (Rabs ((B - A) * level v)).
    split; [apply Rmin_pos; lra|]. intros p Hp.
    assert (Hp1 : Rabs (p - p0) < p0 - IZR a0)
      by (eapply Rlt_le_trans; [exact Hp|apply Rmin_l]).
    assert (Hp2 : Rabs (p - p0) < IZR a0 + 1 - p0)
      by (eapply Rlt_le_trans; [exact Hp|apply Rmin_r]).
    apply Rabs_def2 in Hp1. apply Rabs_def2 in Hp2.
    rewrite (Hat p), (Hat p0) by lra.
    replace ((A * (1 - (p - IZR a0)) + B * (p - IZR a0)) * level v
             - (A * (1 - (p0 - IZR a0)) + B * (p0 - IZR a0)) * level v)
      with ((B - A) * level v * (p - p0)) by ring.
    rewrite Rabs_mult. apply Rle_refl.
Qed.

Lemma morphedSample_continuous_witness :
  continuity_pt (morphedSample soundingVoice 5) 1.
Proof.
  apply (morphedSample_continuous soundingVoice 5 1).
  unfold INT_MAX. lra.
Defined.
